(** * Vehicle-Movement: the playback engine of [MapComponent.tsx]

    A shallow embedding of [src/components/MapComponent.tsx]: the haversine
    distance, the per-frame [animate] callback, the two React effects that
    react to [playing], [route] and [animate], and the two buttons.

    Numbers.  In the component a JavaScript number is modelled as an
    extended real: a finite real, one of the two infinities, or NaN.
    Rounding is not modelled there (a finite result is the exact real result)
    and the two zeros are one (a zero divisor counts as +0, which is what
    [x - x] and [(x - x) / 1000] give in the source).  Division by zero, NaN
    propagation and the comparisons that are false on NaN are modelled as
    ECMAScript defines them.  The statements about the component are the ones
    that rounding does not decide.

    Where rounding decides the outcome, in [haversineDistance], whose
    quantity [a] can round to a double above 1, the function is given a
    second time over binary64 ([Double.haversineDistance]), with [Math.sin],
    [Math.cos] and [Math.atan2], which ECMAScript leaves to the
    implementation, as parameters. *)

From Stdlib Require PrimFloat.
From Stdlib Require Import Ascii String.
From Stdlib Require Import Reals Lra Lia List Bool Arith.
Import ListNotations.

Open Scope R_scope.

(* ------------------------------------------------------------------ *)
(** ** JavaScript numbers *)

Inductive num : Type :=
| Num (x : R)
| PInf
| NInf
| NaN.

Coercion Num : R >-> num.

Module JS.

Definition Rltb (x y : R) : bool := if Rlt_dec x y then true else false.
Definition Rleb (x y : R) : bool := if Rle_dec x y then true else false.
Definition Reqb (x y : R) : bool := if Req_dec_T x y then true else false.

(** The sign of a finite real, used by the infinite cases of [*] and [/]. *)
Inductive sign := Neg | Zero | Pos.

Definition Rsign (x : R) : sign :=
  if Rlt_dec 0 x then Pos else if Rlt_dec x 0 then Neg else Zero.

Definition inf_of (s : sign) : num :=
  match s with Pos => PInf | Neg => NInf | Zero => NaN end.

Definition sign_opp (s : sign) : sign :=
  match s with Pos => Neg | Neg => Pos | Zero => Zero end.

Definition neg (a : num) : num :=
  match a with
  | Num x => Num (- x)
  | PInf => NInf
  | NInf => PInf
  | NaN => NaN
  end.

(** [a + b] *)
Definition add (a b : num) : num :=
  match a, b with
  | NaN, _ | _, NaN => NaN
  | Num x, Num y => Num (x + y)
  | PInf, NInf | NInf, PInf => NaN
  | PInf, _ | _, PInf => PInf
  | NInf, _ | _, NInf => NInf
  end.

(** [a - b] *)
Definition sub (a b : num) : num := add a (neg b).

(** [a * b] *)
Definition mul (a b : num) : num :=
  match a, b with
  | NaN, _ | _, NaN => NaN
  | Num x, Num y => Num (x * y)
  | Num x, PInf | PInf, Num x => inf_of (Rsign x)
  | Num x, NInf | NInf, Num x => inf_of (sign_opp (Rsign x))
  | PInf, PInf | NInf, NInf => PInf
  | PInf, NInf | NInf, PInf => NInf
  end.

(** [a / b]; a zero divisor is +0. *)
Definition div (a b : num) : num :=
  match a, b with
  | NaN, _ | _, NaN => NaN
  | Num x, Num y => if Reqb y 0 then inf_of (Rsign x) else Num (x / y)
  | Num _, PInf | Num _, NInf => Num 0
  | PInf, Num y => if Rltb y 0 then NInf else PInf
  | NInf, Num y => if Rltb y 0 then PInf else NInf
  | _, _ => NaN
  end.

(** [Math.min(a, b)] *)
Definition min (a b : num) : num :=
  match a, b with
  | NaN, _ | _, NaN => NaN
  | NInf, _ | _, NInf => NInf
  | PInf, c | c, PInf => c
  | Num x, Num y => if Rleb x y then Num x else Num y
  end.

(** [a > b] *)
Definition gt (a b : num) : bool :=
  match a, b with
  | NaN, _ | _, NaN => false
  | Num x, Num y => Rltb y x
  | PInf, PInf => false
  | PInf, _ => true
  | _, NInf => match a with NInf => false | _ => true end
  | _, _ => false
  end.

(** [a >= b] *)
Definition ge (a b : num) : bool :=
  match a, b with
  | NaN, _ | _, NaN => false
  | Num x, Num y => Rleb y x
  | PInf, _ => true
  | _, NInf => true
  | _, _ => false
  end.

(** [Math.sin], [Math.cos], [Math.sqrt] *)
Definition sin (a : num) : num :=
  match a with Num x => Num (Rtrigo_def.sin x) | _ => NaN end.

Definition cos (a : num) : num :=
  match a with Num x => Num (Rtrigo_def.cos x) | _ => NaN end.

Definition sqrt (a : num) : num :=
  match a with
  | Num x => if Rltb x 0 then NaN else Num (R_sqrt.sqrt x)
  | PInf => PInf
  | _ => NaN
  end.

(** [Math.atan2] on two finite reals. *)
Definition Ratan2 (y x : R) : R :=
  if Rlt_dec 0 x then atan (y / x)
  else if Rlt_dec x 0 then
    if Rle_dec 0 y then atan (y / x) + PI else atan (y / x) - PI
  else if Rlt_dec 0 y then PI / 2
  else if Rlt_dec y 0 then - (PI / 2)
  else 0.

(** [Math.atan2(y, x)] *)
Definition atan2 (y x : num) : num :=
  match y, x with
  | NaN, _ | _, NaN => NaN
  | Num b, Num a => Num (Ratan2 b a)
  | Num b, PInf => Num 0
  | Num b, NInf => if Rltb b 0 then Num (- PI) else Num PI
  | PInf, PInf => Num (PI / 4)
  | PInf, NInf => Num (3 * PI / 4)
  | PInf, Num _ => Num (PI / 2)
  | NInf, PInf => Num (- (PI / 4))
  | NInf, NInf => Num (- (3 * PI / 4))
  | NInf, Num _ => Num (- (PI / 2))
  end.

Definition finite (a : num) : Prop := exists x, a = Num x.

End JS.

Declare Scope js_scope.
Delimit Scope js_scope with js.
Infix "+" := JS.add : js_scope.
Infix "-" := JS.sub : js_scope.
Infix "*" := JS.mul : js_scope.
Infix "/" := JS.div : js_scope.

(* ------------------------------------------------------------------ *)
(** ** [haversineDistance] (lines 27-38)

    Over the extended reals: the value the formula has when nothing is
    rounded.  On finite arguments it never is NaN here, while the doubles
    can give NaN (see [Double.haversineDistance]). *)

Definition toRad (x : num) : num := ((x * PI) / 180)%js.

Definition earthR : num := 6371000.

Definition haversineDistance (lat1 lon1 lat2 lon2 : num) : num :=
  let dLat := toRad (lat2 - lat1)%js in
  let dLon := toRad (lon2 - lon1)%js in
  let a :=
    (JS.sin (dLat / 2) * JS.sin (dLat / 2) +
     JS.cos (toRad lat1) * JS.cos (toRad lat2) *
     JS.sin (dLon / 2) * JS.sin (dLon / 2))%js in
  let c := (2 * JS.atan2 (JS.sqrt a) (JS.sqrt (1 - a)))%js in
  (earthR * c)%js.

(** The quantity [a] of lines 32-35 when the four coordinates are finite,
    as one real expression. *)
Definition hav_a (lat1 lon1 lat2 lon2 : R) : R :=
  let dLat := (lat2 - lat1) * PI / 180 in
  let dLon := (lon2 - lon1) * PI / 180 in
  sin (dLat / 2) * sin (dLat / 2) +
  cos (lat1 * PI / 180) * cos (lat2 * PI / 180) *
  sin (dLon / 2) * sin (dLon / 2).

(** The value of [R * c] (lines 36-37) on finite coordinates. *)
Definition hav_real (lat1 lon1 lat2 lon2 : R) : R :=
  let a := hav_a lat1 lon1 lat2 lon2 in
  6371000 * (2 * JS.Ratan2 (sqrt a) (sqrt (1 - a))).

(** ** [haversineDistance] over binary64

    The same function with the arithmetic of the doubles: [+], [-], [*], [/]
    and [Math.sqrt] are the IEEE 754 operations, rounded to nearest;
    [Math.sin], [Math.cos] and [Math.atan2] are parameters. *)
Module Double.

Import PrimFloat.
Local Open Scope float_scope.

(** [Math.PI] *)
Definition PI : float := 0x1.921fb54442d18p+1.

Definition toRad (x : float) : float := (x * PI) / 180.

Section Math.

Variables (msin mcos : float -> float) (matan2 : float -> float -> float).

(** The quantity [a] of lines 32-35. *)
Definition haversineA (lat1 lon1 lat2 lon2 : float) : float :=
  let dLat := toRad (lat2 - lat1) in
  let dLon := toRad (lon2 - lon1) in
  msin (dLat / 2) * msin (dLat / 2) +
  mcos (toRad lat1) * mcos (toRad lat2) *
  msin (dLon / 2) * msin (dLon / 2).

Definition haversineDistance (lat1 lon1 lat2 lon2 : float) : float :=
  let a := haversineA lat1 lon1 lat2 lon2 in
  let c := 2 * matan2 (sqrt a) (sqrt (1 - a)) in
  6371000 * c.

End Math.

(** Two finite points, nearly antipodal: (12.55, -103.33) and
    (-12.55, 76.67), as the doubles these literals denote. *)
Definition latP : float := 0x1.919999999999ap+3.
Definition lonP : float := -0x1.9d51eb851eb85p+6.
Definition latQ : float := -0x1.919999999999ap+3.
Definition lonQ : float := 0x1.32ae147ae147bp+6.

(** The arguments [Math.sin] and [Math.cos] receive on these two points:
    [dLat / 2], [dLon / 2] (the double nearest to PI/2) and the two
    latitudes in radians. *)
Definition halfDLat : float := -0x1.c0976cea4cd0bp-3.
Definition halfDLon : float := 0x1.921fb54442d18p+0.
Definition radP : float := 0x1.c0976cea4cd0bp-3.
Definition radQ : float := -0x1.c0976cea4cd0bp-3.

(** The doubles nearest to the sine and the cosine of those arguments. *)
Definition sinHalfDLat : float := -0x1.bd0354d7216b7p-3.
Definition sinHalfDLon : float := 1.
Definition cosRad : float := 0x1.f3c443c6984dfp-1.

(** The double that follows 1: 1.0000000000000002. *)
Definition onePlusUlp : float := 0x1.0000000000001p+0.

(** A math library that returns those values on those arguments, and lets
    a NaN argument through. *)
Definition tableSin (x : float) : float :=
  if x =? halfDLat then sinHalfDLat
  else if x =? halfDLon then sinHalfDLon
  else 0.

Definition tableCos (x : float) : float :=
  if x =? radP then cosRad
  else if x =? radQ then cosRad
  else 1.

Definition tableAtan2 (y x : float) : float :=
  if is_nan y then nan else if is_nan x then nan else 0.

End Double.

(* ------------------------------------------------------------------ *)
(** ** The component state *)

(** [LocationPoint] (lines 13-17).  The JSON numbers are finite.  The
    timestamp string is kept as the value of [new Date(timestamp).getTime()],
    its epoch milliseconds.  Only routes whose timestamps parse are
    represented: on a timestamp that does not parse, [toISOString] at line
    105 throws, which no statement below covers. *)
Record LocationPoint : Type := mkPoint {
  latitude : R;
  longitude : R;
  timestamp : R
}.

(** The [useState] cells and the [useRef] cells of [MapComponent]
    (lines 41-52).  [animationRef] is not a field: which callback is pending
    is expressed by the events below.  [lastTimestampRef] holds an ISO string
    in the source and is kept here as the epoch milliseconds that
    [new Date(...).getTime()] reads back from it. *)
Record Engine : Type := mkEngine {
  route : list LocationPoint;
  currentIndex : nat;
  playing : bool;
  elapsedTime : num;
  distanceTravelled : num;
  speed : num;
  startTimeRef : option R;
  lastTimestampRef : option R;
  lastPositionRef : option (num * num);
  progressRef : num
}.

Definition initial : Engine :=
  mkEngine [] 0 false 0 0 0 None None None 0.

Definition set_route (r : list LocationPoint) (s : Engine) : Engine :=
  mkEngine r (currentIndex s) (playing s) (elapsedTime s)
    (distanceTravelled s) (speed s) (startTimeRef s) (lastTimestampRef s)
    (lastPositionRef s) (progressRef s).

Definition set_playing (b : bool) (s : Engine) : Engine :=
  mkEngine (route s) (currentIndex s) b (elapsedTime s)
    (distanceTravelled s) (speed s) (startTimeRef s) (lastTimestampRef s)
    (lastPositionRef s) (progressRef s).

Definition set_startTimeRef (t : option R) (s : Engine) : Engine :=
  mkEngine (route s) (currentIndex s) (playing s) (elapsedTime s)
    (distanceTravelled s) (speed s) t (lastTimestampRef s)
    (lastPositionRef s) (progressRef s).

(** The body shared by the [!playing] effect (lines 62-68) and the Reset
    button (lines 158-164): index, telemetry and the three refs go back to
    their initial values; [route], [playing] and [startTimeRef] are not
    touched. *)
Definition zeroed (s : Engine) : Engine :=
  mkEngine (route s) 0 (playing s) 0 0 0 (startTimeRef s) None None 0.

(** Linear interpolation of one coordinate (lines 93-94 and 133-134). *)
Definition lerp (a b : R) (progress : num) : num :=
  (a + (b - a) * progress)%js.

Definition interpolate (current next : LocationPoint) (progress : num)
  : num * num :=
  (lerp (latitude current) (latitude next) progress,
   lerp (longitude current) (longitude next) progress).

(** [if (!startTimeRef.current) startTimeRef.current = currentTime]
    (line 85): [null] and [0] are both falsy. *)
Definition startOrigin (st : option R) (currentTime : R) : R :=
  match st with
  | None => currentTime
  | Some t => if JS.Reqb t 0 then currentTime else t
  end.

(** [timeDiff] (line 89) *)
Definition timeDiff (current next : LocationPoint) : num :=
  ((timestamp next - timestamp current) / 1000)%js.

(** [progressRef.current] as line 91 computes it, from [elapsed].  The
    quotient is the exact one: where it is exactly 1 the doubles can give a
    value just below 1, and the advance then waits for a later frame; no
    statement below says at which frame the boundary is crossed. *)
Definition segmentProgress (idx : nat) (elapsed td : num) : num :=
  let segmentElapsed := (elapsed - INR idx * td)%js in
  JS.min (segmentElapsed / td)%js 1.

(** [secDiff] (line 100) *)
Definition secDiff (currentTime : R) (lastTs : option R) : num :=
  ((currentTime - match lastTs with Some t => t | None => currentTime end)
   / 1000)%js.

(** [animate] (lines 73-114) for a frame that fires at wall-clock time
    [currentTime].  The second [Date.now()] of line 110 is read as the same
    instant.  Where [route[currentIndex]] is undefined and
    [route[currentIndex + 1]] is not, the source would throw; no list has
    such an index and the state is left as it is. *)
Definition animate (currentTime : R) (s : Engine) : Engine :=
  if negb (playing s) || (length (route s) =? 0)%nat then s
  else
    match nth_error (route s) (currentIndex s),
          nth_error (route s) (currentIndex s + 1) with
    | _, None => set_playing false s
    | None, Some _ => s
    | Some current, Some next =>
        let start := startOrigin (startTimeRef s) currentTime in
        let elapsed := ((currentTime - start) / 1000)%js in
        let td := timeDiff current next in
        let progress := segmentProgress (currentIndex s) elapsed td in
        let pos := interpolate current next progress in
        let dist :=
          match lastPositionRef s with
          | Some (plat, plng) =>
              Some (haversineDistance plat plng (fst pos) (snd pos))
          | None => None
          end in
        let distance' :=
          match dist with
          | Some d => (distanceTravelled s + d)%js
          | None => distanceTravelled s
          end in
        let speed' :=
          match dist with
          | Some d =>
              let sd := secDiff currentTime (lastTimestampRef s) in
              if JS.gt sd 0 then (d / sd)%js else speed s
          | None => speed s
          end in
        let advance := JS.ge progress 1 in
        mkEngine (route s)
          (if advance
           then Nat.min (currentIndex s + 1) (length (route s) - 1)
           else currentIndex s)
          (playing s)
          elapsed
          distance'
          speed'
          (Some (if advance then currentTime else start))
          (Some (timestamp current))
          (Some pos)
          (if advance then 0 else progress)
    end.

(** The effect with dependencies [playing, route] (lines 60-71). *)
Definition stopEffect (s : Engine) : Engine :=
  if playing s then s else zeroed s.

(** The effect with dependencies [playing, animate] (lines 116-127);
    [animate] is a [useCallback] over [playing, currentIndex, route], so the
    effect also runs again after every change of the index.  While playing
    it clears [startTimeRef] (line 118) and requests the next frame. *)
Definition frameEffect (s : Engine) : Engine :=
  if playing s then set_startTimeRef None s else s.

(** What React does after a handler has turned state [old] into [new]: each
    effect runs when one of its dependencies changed.  [routeChanged] tells
    whether the handler called [setRoute], which installs a new array. *)
Definition commit (routeChanged : bool) (old new : Engine) : Engine :=
  let playingChanged := negb (Bool.eqb (playing old) (playing new)) in
  let s1 := if routeChanged || playingChanged then stopEffect new else new in
  let animateChanged :=
    routeChanged || playingChanged
    || negb (currentIndex old =? currentIndex new)%nat in
  if animateChanged then frameEffect s1 else s1.

(** What can happen to the mounted component: the fetch of line 55
    resolves, a button is clicked, or a requested animation frame fires. *)
Inductive event : Type :=
| Fetched (data : list LocationPoint)
| ClickPlayPause
| ClickReset
| Frame (now : R).

(** The buttons exist only when the route is not empty (line 129). *)
Definition handler (e : event) (s : Engine) : Engine :=
  match e with
  | Fetched data => set_route data s
  | ClickPlayPause =>
      match route s with
      | [] => s
      | _ => set_playing (negb (playing s)) s
      end
  | ClickReset =>
      match route s with
      | [] => s
      | _ => set_playing false (zeroed s)
      end
  | Frame now => animate now s
  end.

Definition isFetched (e : event) : bool :=
  match e with Fetched _ => true | _ => false end.

Definition step (e : event) (s : Engine) : Engine :=
  commit (isFetched e) s (handler e s).

Definition run (es : list event) (s : Engine) : Engine :=
  fold_left (fun acc e => step e acc) es s.

(** The position the component renders (lines 131-135). *)
Definition currentPos (s : Engine) : option (num * num) :=
  match nth_error (route s) (currentIndex s),
        nth_error (route s)
          (Nat.min (currentIndex s + 1) (length (route s) - 1)) with
  | Some current, Some next => Some (interpolate current next (progressRef s))
  | _, _ => None
  end.

(** Index, telemetry and sample refs all at their initial values. *)
Definition at_rest (s : Engine) : Prop :=
  currentIndex s = 0%nat /\ elapsedTime s = 0 /\ distanceTravelled s = 0
  /\ speed s = 0 /\ progressRef s = 0
  /\ lastTimestampRef s = None /\ lastPositionRef s = None.

(** The quantities one sampling frame computes, named for the statements
    below: [elapsed] (line 86), [progressRef.current] (line 91) and the
    interpolated position (lines 93-94). *)
Definition tickElapsed (now : R) (s : Engine) : num :=
  ((now - startOrigin (startTimeRef s) now) / 1000)%js.

Definition tickProgress (now : R) (s : Engine) (current next : LocationPoint)
  : num :=
  segmentProgress (currentIndex s) (tickElapsed now s) (timeDiff current next).

Definition tickPos (now : R) (s : Engine) (current next : LocationPoint)
  : num * num :=
  interpolate current next (tickProgress now s current next).

(** The shapes the state can take after one event. *)
Inductive outcome (e : event) (s : Engine) : Engine -> Prop :=
| out_same : outcome e s s
| out_fetch_playing data :
    e = Fetched data -> playing s = true ->
    outcome e s (set_startTimeRef None (set_route data s))
| out_fetch_idle data :
    e = Fetched data -> playing s = false ->
    outcome e s (zeroed (set_route data s))
| out_stop :
    route s <> [] -> outcome e s (zeroed (set_playing false s))
| out_play :
    e = ClickPlayPause -> route s <> [] -> playing s = false ->
    outcome e s (set_startTimeRef None (set_playing true s))
| out_sample now current next :
    e = Frame now -> playing s = true ->
    nth_error (route s) (currentIndex s) = Some current ->
    nth_error (route s) (currentIndex s + 1) = Some next ->
    outcome e s
      (if JS.ge (tickProgress now s current next) 1
       then set_startTimeRef None (animate now s) else animate now s).

(** ** Sample routes and traces *)

(** Three waypoints one second apart, heading east along the equator. *)
Definition route3 : list LocationPoint :=
  [mkPoint 0 0 0; mkPoint 0 1 1000; mkPoint 0 2 2000].

(** Two waypoints that carry the same timestamp. *)
Definition routeSame : list LocationPoint :=
  [mkPoint 0 0 1000; mkPoint 1 1 1000].

(** Two waypoints ten seconds apart, recorded at the epoch. *)
Definition routeOld : list LocationPoint :=
  [mkPoint 0 0 0; mkPoint 0 1 10000].

(** Load, press Play, first frame at 5000 ms, second frame at 6000 ms. *)
Definition trace3 : list event :=
  [Fetched route3; ClickPlayPause; Frame 5000; Frame 6000].

Definition traceSame : list event :=
  [Fetched routeSame; ClickPlayPause; Frame 5000].

Definition traceOld : list event :=
  [Fetched routeOld; ClickPlayPause; Frame 50000].

(** The states the sample traces lead to (shown below to be what [run]
    computes). *)
Definition state3_first : Engine :=
  mkEngine route3 0 true 0 0 0 (Some 5000) (Some 0) (Some (Num 0, Num 0)) 0.

Definition state3 : Engine :=
  mkEngine route3 1 true 1 (hav_real 0 0 0 1) (hav_real 0 0 0 1 / 6)
    None (Some 0) (Some (Num 0, Num 1)) 0.

Definition state3_third : Engine :=
  mkEngine route3 1 true 0
    (hav_real 0 0 0 1 + hav_real 0 1 0 0) (hav_real 0 1 0 0 / (13 / 2))
    (Some 6500) (Some 1000) (Some (Num 0, Num 0)) (-1).

Definition stateSame_play : Engine :=
  mkEngine routeSame 0 true 0 0 0 None None None 0.

Definition stateSame_first : Engine :=
  mkEngine routeSame 0 true 0 0 0 (Some 5000) (Some 1000)
    (Some (NaN, NaN)) NaN.

Definition stateSame_second : Engine :=
  mkEngine routeSame 1 true 1 NaN NaN None (Some 1000)
    (Some (Num 1, Num 1)) 0.

Definition stateOld_first : Engine :=
  mkEngine routeOld 0 true 0 0 0 (Some 50000) (Some 0)
    (Some (Num 0, Num 0)) 0.

Definition stateOld_second : Engine :=
  mkEngine routeOld 0 true 1
    (hav_real 0 0 0 (1 / 10)) (hav_real 0 0 0 (1 / 10) / 51)
    (Some 50000) (Some 0) (Some (Num 0, Num (1 / 10))) (1 / 10).

Definition stateOld_last : Engine :=
  mkEngine routeOld 1 true 10 (hav_real 0 0 0 1) (hav_real 0 0 0 1 / 60)
    None (Some 0) (Some (Num 0, Num 1)) 0.

(** ** What the component renders besides the position *)

(** [traveledPath] (line 136): the coordinates of the waypoints up to and
    including the current one. *)
Definition traveledPath (s : Engine) : list (R * R) :=
  map (fun p => (latitude p, longitude p))
      (firstn (currentIndex s + 1) (route s)).




(** ** Traces and states the further properties speak about *)

(** The state right after Play on route [r]: everything at its initial
    value, [playing] set and the origin cleared. *)
Definition started (r : list LocationPoint) : Engine :=
  mkEngine r 0 true 0 0 0 None None None 0.

(** No event of the trace is a resolved fetch. *)
Definition no_fetch (es : list event) : Prop :=
  Forall (fun e => isFetched e = false) es.

(** Every fetch of the trace delivers the empty route. *)
Definition only_empty_fetch (es : list event) : Prop :=
  Forall (fun e => match e with Fetched d => d = [] | _ => True end) es.

(** The quotient [segmentElapsed / timeDiff] of line 91 as one real, for a
    frame at [now] whose origin is [origin], on the segment of index [idx]
    between the timestamps [tc] and [tn]. *)
Definition progressQuotient (now origin : R) (idx : nat) (tc tn : R) : R :=
  ((now - origin) / 1000 - INR idx * ((tn - tc) / 1000)) / ((tn - tc) / 1000).

(* ------------------------------------------------------------------ *)
(** ** Arithmetic on finite numbers *)

Lemma Rltb_true x y : x < y -> JS.Rltb x y = true.
Proof. intros H; unfold JS.Rltb; destruct (Rlt_dec x y); [easy | contradiction]. Qed.

Lemma Rltb_false x y : y <= x -> JS.Rltb x y = false.
Proof. intros H; unfold JS.Rltb; destruct (Rlt_dec x y); [lra | easy]. Qed.

Lemma Rleb_true x y : x <= y -> JS.Rleb x y = true.
Proof. intros H; unfold JS.Rleb; destruct (Rle_dec x y); [easy | contradiction]. Qed.

Lemma Rleb_false x y : y < x -> JS.Rleb x y = false.
Proof. intros H; unfold JS.Rleb; destruct (Rle_dec x y); [lra | easy]. Qed.

Lemma Reqb_true x y : x = y -> JS.Reqb x y = true.
Proof. intros H; unfold JS.Reqb; destruct (Req_dec_T x y); [easy | contradiction]. Qed.

Lemma Reqb_false x y : x <> y -> JS.Reqb x y = false.
Proof. intros H; unfold JS.Reqb; destruct (Req_dec_T x y); [contradiction | easy]. Qed.

Lemma add_num (x y : R) : (x + y)%js = Num (x + y).
Proof. reflexivity. Qed.

Lemma sub_num (x y : R) : (x - y)%js = Num (x - y).
Proof. reflexivity. Qed.

Lemma mul_num (x y : R) : (x * y)%js = Num (x * y).
Proof. reflexivity. Qed.

Lemma div_num (x y : R) : y <> 0 -> (x / y)%js = Num (x / y).
Proof. intros H; unfold JS.div; now rewrite Reqb_false. Qed.


Lemma Rsign_pos x : 0 < x -> JS.Rsign x = JS.Pos.
Proof. intros H; unfold JS.Rsign; destruct (Rlt_dec 0 x); [easy | contradiction]. Qed.

Lemma Rsign_zero : JS.Rsign 0 = JS.Zero.
Proof.
  unfold JS.Rsign; destruct (Rlt_dec 0 0); [lra | easy].
Qed.

Lemma sqrt_num (x : R) : 0 <= x -> JS.sqrt x = Num (sqrt x).
Proof. intros H; unfold JS.sqrt; now rewrite Rltb_false. Qed.

(** Rewriting a numeric expression on finite operands into one real. *)
Ltac js_finite :=
  repeat first
    [ rewrite add_num | rewrite sub_num | rewrite mul_num
    | rewrite div_num by lra ].

(* ------------------------------------------------------------------ *)
(** ** The haversine distance on finite coordinates *)

Section Haversine.

Variables lat1 lon1 lat2 lon2 : R.

Lemma sin_sqr_bounds x : 0 <= sin x * sin x <= 1.
Proof.
  pose proof (sin2_cos2 x) as H. unfold Rsqr in H.
  pose proof (Rle_0_sqr (sin x)) as Hs. pose proof (Rle_0_sqr (cos x)) as Hc.
  unfold Rsqr in Hs, Hc. lra.
Qed.

Lemma hav_a_bounds : 0 <= hav_a lat1 lon1 lat2 lon2 <= 1.
Proof.
  unfold hav_a. cbv zeta.
  set (p1 := lat1 * PI / 180). set (p2 := lat2 * PI / 180).
  set (u := (lat2 - lat1) * PI / 180 / 2).
  set (v := (lon2 - lon1) * PI / 180 / 2).
  assert (Hu : 2 * u = p2 - p1) by (unfold u, p1, p2; lra).
  pose proof (cos_2a_sin u) as H2. rewrite Hu, cos_minus in H2.
  pose proof (COS_bound (p2 + p1)) as HK. rewrite cos_plus in HK.
  pose proof (sin_sqr_bounds u) as HA. pose proof (sin_sqr_bounds v) as HS.
  set (A := sin u * sin u) in *. 
  assert (EA : 2 * sin u * sin u = 2 * A) by (unfold A; ring).
  rewrite EA in H2. clear EA.
  replace (cos p1 * cos p2 * sin v * sin v)
    with ((cos p2 * cos p1) * (sin v * sin v)) by ring.
  set (S := sin v * sin v) in *.
  set (C := cos p2 * cos p1) in *. set (D := sin p2 * sin p1) in *.
  assert (HC : -2 * A <= 2 * C <= 2 - 2 * A) by lra.
  split; nra.
Qed.

End Haversine.

Lemma haversine_finite (lat1 lon1 lat2 lon2 : R) :
  haversineDistance lat1 lon1 lat2 lon2 = Num (hav_real lat1 lon1 lat2 lon2).
Proof.
  pose proof (hav_a_bounds lat1 lon1 lat2 lon2) as Ha.
  unfold haversineDistance, toRad, earthR. cbv zeta.
  js_finite. cbn [JS.sin JS.cos]. js_finite.
  change (sin ((lat2 - lat1) * PI / 180 / 2) * sin ((lat2 - lat1) * PI / 180 / 2) +
          cos (lat1 * PI / 180) * cos (lat2 * PI / 180) *
          sin ((lon2 - lon1) * PI / 180 / 2) * sin ((lon2 - lon1) * PI / 180 / 2))
    with (hav_a lat1 lon1 lat2 lon2).
  rewrite sqrt_num by lra. js_finite. rewrite sqrt_num by lra.
  reflexivity.
Qed.

Lemma Ratan2_nonneg (y x : R) : 0 <= y -> 0 <= x -> 0 <= JS.Ratan2 y x.
Proof.
  intros Hy Hx. unfold JS.Ratan2.
  destruct (Rlt_dec 0 x) as [Hpos | Hn].
  - destruct (Req_dec y 0) as [-> | Hy0].
    + unfold Rdiv. rewrite Rmult_0_l, atan_0. lra.
    + left. rewrite <- atan_0. apply atan_increasing.
      apply Rdiv_lt_0_compat; lra.
  - destruct (Rlt_dec x 0); [lra |].
    destruct (Rlt_dec 0 y); [pose proof PI_RGT_0; lra |].
    destruct (Rlt_dec y 0); lra.
Qed.

Lemma Ratan2_0_1 : JS.Ratan2 0 1 = 0.
Proof.
  unfold JS.Ratan2. destruct (Rlt_dec 0 1); [| lra].
  unfold Rdiv. now rewrite Rmult_0_l, atan_0.
Qed.

Lemma hav_real_nonneg (lat1 lon1 lat2 lon2 : R) :
  0 <= hav_real lat1 lon1 lat2 lon2.
Proof.
  unfold hav_real. cbv zeta.
  pose proof (Ratan2_nonneg (sqrt (hav_a lat1 lon1 lat2 lon2))
                (sqrt (1 - hav_a lat1 lon1 lat2 lon2))
                (sqrt_pos _) (sqrt_pos _)).
  lra.
Qed.

Lemma hav_a_sym (lat1 lon1 lat2 lon2 : R) :
  hav_a lat1 lon1 lat2 lon2 = hav_a lat2 lon2 lat1 lon1.
Proof.
  unfold hav_a. cbv zeta.
  replace ((lat1 - lat2) * PI / 180 / 2) with (- ((lat2 - lat1) * PI / 180 / 2)) by lra.
  replace ((lon1 - lon2) * PI / 180 / 2) with (- ((lon2 - lon1) * PI / 180 / 2)) by lra.
  rewrite !sin_neg. ring.
Qed.

Lemma hav_a_same (lat lon : R) : hav_a lat lon lat lon = 0.
Proof.
  unfold hav_a. cbv zeta.
  replace ((lat - lat) * PI / 180 / 2) with 0 by lra.
  replace ((lon - lon) * PI / 180 / 2) with 0 by lra.
  rewrite sin_0. ring.
Qed.

(** With exact real arithmetic the formula of lines 27-38 returns, on finite
    coordinates, a finite number that is non-negative, the same number when
    the two points are exchanged, and 0 when the two points are the same. *)
Lemma haversine_exact_nonneg_symmetric_zero (lat1 lon1 lat2 lon2 : R) :
  (exists d : R, haversineDistance lat1 lon1 lat2 lon2 = Num d /\ 0 <= d)
  /\ haversineDistance lat1 lon1 lat2 lon2
     = haversineDistance lat2 lon2 lat1 lon1
  /\ haversineDistance lat1 lon1 lat1 lon1 = Num 0.
Proof.
  repeat split.
  - exists (hav_real lat1 lon1 lat2 lon2). split.
    + apply haversine_finite.
    + apply hav_real_nonneg.
  - rewrite !haversine_finite. unfold hav_real. cbv zeta.
    now rewrite (hav_a_sym lat1 lon1 lat2 lon2).
  - rewrite haversine_finite. unfold hav_real. cbv zeta.
    rewrite hav_a_same, Rminus_0_r, sqrt_0, sqrt_1, Ratan2_0_1.
    f_equal. lra.
Qed.

(** C10: on the finite points (12.55, -103.33) and (-12.55, 76.67), with a
    math library that returns the doubles nearest to the sine and the cosine
    of the arguments the call reaches, the quantity [a] is computed as
    1.0000000000000002, above 1, so [Math.sqrt(1 - a)] is NaN and
    [haversineDistance] returns NaN, which is not a non-negative number. *)
Theorem C10_haversine_nan_on_finite_points
    (msin mcos : PrimFloat.float -> PrimFloat.float)
    (matan2 : PrimFloat.float -> PrimFloat.float -> PrimFloat.float) :
  msin Double.halfDLat = Double.sinHalfDLat ->
  msin Double.halfDLon = Double.sinHalfDLon ->
  mcos Double.radP = Double.cosRad ->
  mcos Double.radQ = Double.cosRad ->
  (forall y, matan2 y PrimFloat.nan = PrimFloat.nan) ->
  Double.haversineA msin mcos Double.latP Double.lonP Double.latQ Double.lonQ
  = Double.onePlusUlp
  /\ PrimFloat.ltb PrimFloat.one Double.onePlusUlp = true
  /\ PrimFloat.is_nan
       (PrimFloat.sqrt (PrimFloat.sub PrimFloat.one Double.onePlusUlp)) = true
  /\ PrimFloat.is_nan
       (Double.haversineDistance msin mcos matan2
          Double.latP Double.lonP Double.latQ Double.lonQ) = true.
Proof.
  intros Hs1 Hs2 Hc1 Hc2 Hnan.
  vm_compute in Hs1, Hs2, Hc1, Hc2.
  assert (Ha : Double.haversineA msin mcos
                 Double.latP Double.lonP Double.latQ Double.lonQ
               = Double.onePlusUlp).
  { vm_compute. rewrite Hs1, Hs2, Hc1, Hc2. vm_compute. reflexivity. }
  split; [exact Ha |]. split; [reflexivity |]. split; [reflexivity |].
  unfold Double.haversineDistance. cbv zeta. rewrite Ha.
  vm_compute. rewrite Hnan. reflexivity.
Qed.

Lemma C10_haversine_nan_on_finite_points_witness :
  Double.tableSin Double.halfDLat = Double.sinHalfDLat
  /\ Double.tableSin Double.halfDLon = Double.sinHalfDLon
  /\ Double.tableCos Double.radP = Double.cosRad
  /\ Double.tableCos Double.radQ = Double.cosRad
  /\ (forall y, Double.tableAtan2 y PrimFloat.nan = PrimFloat.nan)
  /\ PrimFloat.is_nan
       (Double.haversineDistance Double.tableSin Double.tableCos
          Double.tableAtan2
          Double.latP Double.lonP Double.latQ Double.lonQ) = true.
Proof.
  assert (Hnan : forall y, Double.tableAtan2 y PrimFloat.nan = PrimFloat.nan).
  { intros y. unfold Double.tableAtan2.
    destruct (PrimFloat.is_nan y); reflexivity. }
  split; [reflexivity |]. split; [reflexivity |]. split; [reflexivity |].
  split; [reflexivity |]. split; [exact Hnan |].
  exact (proj2 (proj2 (proj2
           (C10_haversine_nan_on_finite_points
              Double.tableSin Double.tableCos Double.tableAtan2
              eq_refl eq_refl eq_refl eq_refl Hnan)))).
Defined.

(** C9: the interpolated position is, in each coordinate on its own, the
    linear expression [c0 + (c1 - c0) * progress]; at progress 0 it is the
    current waypoint and at progress 1 the next waypoint. *)
Theorem C9_interpolate_linear_endpoints (current next : LocationPoint) :
  (forall p : R,
      interpolate current next p
      = (Num (latitude current + (latitude next - latitude current) * p),
         Num (longitude current + (longitude next - longitude current) * p)))
  /\ interpolate current next 0 = (Num (latitude current), Num (longitude current))
  /\ interpolate current next 1 = (Num (latitude next), Num (longitude next)).
Proof.
  unfold interpolate, lerp. split; [| split].
  - intros p. js_finite. reflexivity.
  - js_finite. f_equal; f_equal; lra.
  - js_finite. f_equal; f_equal; lra.
Qed.

(** The rendered position is the same interpolation, at the progress the
    last frame left. *)
Lemma currentPos_interpolates (s : Engine) (current next : LocationPoint) :
  nth_error (route s) (currentIndex s) = Some current ->
  nth_error (route s) (currentIndex s + 1) = Some next ->
  currentPos s = Some (interpolate current next (progressRef s)).
Proof.
  intros Hc Hn. unfold currentPos.
  assert (Hlt : (currentIndex s + 1 < length (route s))%nat)
    by (apply nth_error_Some; rewrite Hn; discriminate).
  replace (Nat.min (currentIndex s + 1) (length (route s) - 1))
    with (currentIndex s + 1)%nat by lia.
  now rewrite Hc, Hn.
Qed.

(** A NaN latitude in the previous sample makes the distance NaN. *)
Lemma haversine_nan (lon1 lat2 lon2 : num) :
  haversineDistance NaN lon1 lat2 lon2 = NaN.
Proof.
  unfold haversineDistance, toRad, earthR. destruct lat2; reflexivity.
Qed.

Lemma Ratan2_le_half_pi (y x : R) : 0 <= y -> 0 <= x -> JS.Ratan2 y x <= PI / 2.
Proof.
  intros Hy Hx. pose proof PI_RGT_0 as Hpi. unfold JS.Ratan2.
  destruct (Rlt_dec 0 x).
  - pose proof (atan_bound (y / x)). lra.
  - destruct (Rlt_dec x 0); [lra |].
    destruct (Rlt_dec 0 y); [lra |].
    destruct (Rlt_dec y 0); lra.
Qed.

Lemma toRad_num (x : R) : toRad x = Num (x * PI / 180).
Proof. unfold toRad. now js_finite. Qed.

(** The sine of half the difference of two angles in radians: the two
    angles are finite, or it is NaN. *)
Lemma sin_half_difference (x y : num) :
  (exists x' y' : R, x = Num x' /\ y = Num y')
  \/ JS.sin (toRad (y - x) / 2)%js = NaN.
Proof.
  pose proof PI_RGT_0 as Hpi.
  destruct x as [x | | |], y as [y | | |];
    try (left; now eauto); right; unfold toRad;
    cbn [JS.sub JS.add JS.neg JS.mul];
    rewrite ?(Rsign_pos PI) by assumption;
    repeat (cbn [JS.inf_of JS.sign_opp JS.div JS.sin];
            rewrite ?Rltb_false by lra);
    reflexivity.
Qed.

(** Whatever its four arguments are, [haversineDistance] returns NaN or a
    number between 0 and 6371000 * PI. *)
Lemma haversine_number_or_nan (lat1 lon1 lat2 lon2 : num) :
  haversineDistance lat1 lon1 lat2 lon2 = NaN
  \/ exists h : R,
       haversineDistance lat1 lon1 lat2 lon2 = Num h
       /\ 0 <= h <= 6371000 * PI.
Proof.
  destruct (sin_half_difference lat1 lat2) as [(x1 & x2 & -> & ->) | Hlat].
  - destruct (sin_half_difference lon1 lon2) as [(y1 & y2 & -> & ->) | Hlon].
    + right. exists (hav_real x1 y1 x2 y2).
      split; [apply haversine_finite |].
      split; [apply hav_real_nonneg |].
      unfold hav_real. cbv zeta.
      pose proof (Ratan2_le_half_pi (sqrt (hav_a x1 y1 x2 y2))
                    (sqrt (1 - hav_a x1 y1 x2 y2))
                    (sqrt_pos _) (sqrt_pos _)).
      lra.
    + left. unfold haversineDistance. cbv zeta.
      rewrite Hlon, !toRad_num. cbn [JS.sub JS.add JS.neg].
      rewrite toRad_num. js_finite. reflexivity.
  - left. unfold haversineDistance. cbv zeta. rewrite Hlat. reflexivity.
Qed.

(* ------------------------------------------------------------------ *)
(** ** Evaluating the engine on concrete events *)

Lemma Rsign_eq0 x : x = 0 -> JS.Rsign x = JS.Zero.
Proof. intros ->; apply Rsign_zero. Qed.

Lemma Rsign_neg x : x < 0 -> JS.Rsign x = JS.Neg.
Proof.
  intros H; unfold JS.Rsign.
  destruct (Rlt_dec 0 x); [lra |]. destruct (Rlt_dec x 0); [easy | contradiction].
Qed.

Lemma run_snoc es e s : run (es ++ [e]) s = step e (run es s).
Proof. unfold run. now rewrite fold_left_app. Qed.

(** One round of evaluation: unfold the engine on constructors, then settle
    the comparisons of concrete reals. *)
Ltac js_unfold :=
  cbv beta iota zeta delta
      [run fold_left step commit handler isFetched animate stopEffect initial
       frameEffect zeroed set_route set_playing set_startTimeRef
       route currentIndex playing elapsedTime distanceTravelled speed
       startTimeRef lastTimestampRef lastPositionRef progressRef
       latitude longitude timestamp
       startOrigin timeDiff segmentProgress secDiff interpolate lerp
       nth_error length Nat.add Nat.sub Nat.min Nat.eqb negb orb Bool.eqb
       fst snd INR
       JS.add JS.sub JS.neg JS.mul JS.div JS.min JS.gt JS.ge JS.inf_of
       JS.sign_opp JS.sin JS.cos JS.sqrt JS.atan2].

(** Closed comparisons of reals; [field_simplify] clears a divisor that is
    itself a quotient. *)
Ltac js_arith := solve [ lra | field_simplify; lra ].

Ltac js_decide :=
  first
    [ rewrite Reqb_false by js_arith | rewrite Reqb_true by js_arith
    | rewrite Rltb_true by js_arith | rewrite Rltb_false by js_arith
    | rewrite Rleb_true by js_arith | rewrite Rleb_false by js_arith
    | rewrite Rsign_eq0 by js_arith | rewrite Rsign_pos by js_arith
    | rewrite Rsign_neg by js_arith
    | rewrite haversine_finite | rewrite haversine_nan ].

Ltac js_eval := repeat (progress js_unfold || js_decide).

(** Two values, or two engine states, whose numeric parts are equal reals. *)
Ltac num_eq :=
  lazymatch goal with
  | |- Num _ = Num _ => apply f_equal; first [ lra | field ]
  | |- Some _ = Some _ => apply f_equal; num_eq
  | |- (_, _) = (_, _) => apply f_equal2; num_eq
  | |- @eq R _ _ => first [ lra | field ]
  | |- _ => reflexivity
  end.

Ltac js_same := first [ reflexivity | f_equal; num_eq ].

(** Bring the arguments of a distance to the given closed values. *)
Ltac hav_to a b c d :=
  repeat match goal with
  | |- context [hav_real ?a' ?b' ?c' ?d'] =>
      lazymatch constr:((a', b', c', d')) with
      | (a, b, c, d) => fail
      | _ => replace (hav_real a' b' c' d') with (hav_real a b c d)
               by (f_equal; first [ lra | field ])
      end
  end.

Lemma trace3_first_frame :
  run [Fetched route3; ClickPlayPause; Frame 5000] initial = state3_first.
Proof.
  unfold state3_first, route3. js_eval. js_same.
Qed.

Lemma trace3_second_frame :
  run trace3 initial = state3.
Proof.
  change trace3 with ([Fetched route3; ClickPlayPause; Frame 5000] ++ [Frame 6000]).
  rewrite run_snoc, trace3_first_frame.
  unfold state3, state3_first, route3. js_eval. hav_to 0 0 0 1. js_same.
Qed.

Lemma trace3_third_frame :
  run (trace3 ++ [Frame 6500]) initial = state3_third.
Proof.
  rewrite run_snoc, trace3_second_frame.
  unfold state3_third, state3, route3. js_eval. hav_to 0 1 0 0. js_same.
Qed.

Lemma traceSame_first_frame :
  run traceSame initial = stateSame_first.
Proof.
  unfold stateSame_first, traceSame, routeSame. js_eval. js_same.
Qed.

Lemma traceSame_second_frame :
  run (traceSame ++ [Frame 6000]) initial = stateSame_second.
Proof.
  rewrite run_snoc, traceSame_first_frame.
  unfold stateSame_second, stateSame_first, routeSame. js_eval. js_same.
Qed.


Lemma traceOld_first_frame : run traceOld initial = stateOld_first.
Proof.
  unfold stateOld_first, traceOld, routeOld. js_eval. js_same.
Qed.

Lemma traceOld_last_frame :
  run (traceOld ++ [Frame 60000]) initial = stateOld_last.
Proof.
  rewrite run_snoc, traceOld_first_frame.
  unfold stateOld_last, stateOld_first, routeOld.
  js_eval. hav_to 0 0 0 1. js_same.
Qed.

(* ------------------------------------------------------------------ *)
(** ** One frame, in general *)

Section Frame.

Variables (now : R) (s : Engine) (current next : LocationPoint).
Hypothesis Hplay : playing s = true.
Hypothesis Hcur : nth_error (route s) (currentIndex s) = Some current.
Hypothesis Hnext : nth_error (route s) (currentIndex s + 1) = Some next.

Lemma next_in_range : (currentIndex s + 1 < length (route s))%nat.
Proof. apply nth_error_Some. rewrite Hnext. discriminate. Qed.

Lemma advance_index :
  Nat.min (currentIndex s + 1) (length (route s) - 1) = (currentIndex s + 1)%nat.
Proof. pose proof next_in_range. lia. Qed.

Lemma animate_sample :
  animate now s =
  let progress := tickProgress now s current next in
  let pos := tickPos now s current next in
  let advance := JS.ge progress 1 in
  mkEngine (route s)
    (if advance then (currentIndex s + 1)%nat else currentIndex s)
    true
    (tickElapsed now s)
    match lastPositionRef s with
    | Some (plat, plng) =>
        (distanceTravelled s + haversineDistance plat plng (fst pos) (snd pos))%js
    | None => distanceTravelled s
    end
    match lastPositionRef s with
    | Some (plat, plng) =>
        let d := haversineDistance plat plng (fst pos) (snd pos) in
        let sd := secDiff now (lastTimestampRef s) in
        if JS.gt sd 0 then (d / sd)%js else speed s
    | None => speed s
    end
    (Some (if advance then now else startOrigin (startTimeRef s) now))
    (Some (timestamp current))
    (Some pos)
    (if advance then 0 else progress).
Proof.
  pose proof next_in_range as Hlen.
  unfold animate. rewrite Hplay, Hcur, Hnext.
  replace (length (route s) =? 0)%nat with false
    by (symmetry; apply Nat.eqb_neq; lia).
  cbn [negb orb]. cbv zeta. rewrite advance_index.
  fold (tickElapsed now s). fold (tickProgress now s current next).
  fold (tickPos now s current next).
  destruct (lastPositionRef s) as [[plat plng] |]; reflexivity.
Qed.

Lemma step_frame_sample :
  step (Frame now) s =
  let s' := animate now s in
  if JS.ge (tickProgress now s current next) 1
  then set_startTimeRef None s' else s'.
Proof.
  unfold step, handler, isFetched, commit. cbv zeta.
  rewrite animate_sample. cbv zeta.
  cbn [playing currentIndex]. rewrite Hplay. cbn [Bool.eqb negb orb].
  destruct (JS.ge (tickProgress now s current next) 1).
  - replace (currentIndex s =? currentIndex s + 1)%nat with false
      by (symmetry; apply Nat.eqb_neq; lia).
    reflexivity.
  - rewrite Nat.eqb_refl. reflexivity.
Qed.

(** The fields after a sampling frame. *)
Ltac frame_field :=
  rewrite step_frame_sample, animate_sample; cbv zeta;
  destruct (JS.ge (tickProgress now s current next) 1); reflexivity.

Lemma frame_route : route (step (Frame now) s) = route s.
Proof. frame_field. Qed.

Lemma frame_playing : playing (step (Frame now) s) = true.
Proof. frame_field. Qed.

Lemma frame_index :
  currentIndex (step (Frame now) s)
  = if JS.ge (tickProgress now s current next) 1
    then (currentIndex s + 1)%nat else currentIndex s.
Proof. frame_field. Qed.

Lemma frame_elapsed : elapsedTime (step (Frame now) s) = tickElapsed now s.
Proof. frame_field. Qed.

Lemma frame_progress :
  progressRef (step (Frame now) s)
  = if JS.ge (tickProgress now s current next) 1
    then Num 0 else tickProgress now s current next.
Proof. frame_field. Qed.

Lemma frame_start :
  startTimeRef (step (Frame now) s)
  = if JS.ge (tickProgress now s current next) 1
    then None else Some (startOrigin (startTimeRef s) now).
Proof. frame_field. Qed.

Lemma frame_lastPosition :
  lastPositionRef (step (Frame now) s) = Some (tickPos now s current next).
Proof. frame_field. Qed.

Lemma frame_lastTimestamp :
  lastTimestampRef (step (Frame now) s) = Some (timestamp current).
Proof. frame_field. Qed.

Lemma frame_distance :
  distanceTravelled (step (Frame now) s)
  = match lastPositionRef s with
    | Some (plat, plng) =>
        (distanceTravelled s
         + haversineDistance plat plng (fst (tickPos now s current next))
             (snd (tickPos now s current next)))%js
    | None => distanceTravelled s
    end.
Proof. frame_field. Qed.

Lemma frame_speed :
  speed (step (Frame now) s)
  = match lastPositionRef s with
    | Some (plat, plng) =>
        if JS.gt (secDiff now (lastTimestampRef s)) 0
        then (haversineDistance plat plng (fst (tickPos now s current next))
                (snd (tickPos now s current next))
              / secDiff now (lastTimestampRef s))%js
        else speed s
    | None => speed s
    end.
Proof. frame_field. Qed.

End Frame.

(* ------------------------------------------------------------------ *)
(** ** Stopping: pause, reset and the end of the route *)

Lemma at_rest_zeroed s : at_rest (zeroed s).
Proof. unfold at_rest, zeroed; cbn. tauto. Qed.

(** A frame that finds no next waypoint stops playback, and the stop effect
    then rewinds the component. *)
Lemma step_frame_terminal (now : R) (s : Engine) :
  playing s = true -> route s <> [] ->
  nth_error (route s) (currentIndex s + 1) = None ->
  step (Frame now) s = zeroed (set_playing false s).
Proof.
  intros Hplay Hr Hnone.
  assert (Ha : animate now s = set_playing false s).
  { unfold animate. rewrite Hplay, Hnone.
    destruct (route s) as [| p r] eqn:E; [contradiction |].
    cbn [length Nat.eqb negb orb].
    now destruct (nth_error (p :: r) (currentIndex s)). }
  unfold step, handler, isFetched, commit. rewrite Ha.
  cbn [playing set_playing currentIndex]. rewrite Hplay.
  cbn [Bool.eqb negb orb stopEffect frameEffect playing set_playing zeroed].
  reflexivity.
Qed.

Lemma step_frame_idle (now : R) (s : Engine) :
  playing s = false -> step (Frame now) s = s.
Proof.
  intros Hp. unfold step, handler, isFetched, commit, animate.
  rewrite Hp. cbn [negb orb]. rewrite Hp, Nat.eqb_refl. reflexivity.
Qed.

Lemma step_pause (s : Engine) :
  route s <> [] -> playing s = true ->
  step ClickPlayPause s = zeroed (set_playing false s).
Proof.
  intros Hr Hp. unfold step, handler, isFetched, commit.
  destruct (route s) as [| p r] eqn:E; [contradiction |].
  cbn [playing set_playing currentIndex]. rewrite Hp.
  cbn [Bool.eqb negb orb stopEffect frameEffect playing set_playing zeroed].
  reflexivity.
Qed.

Lemma step_play (s : Engine) :
  route s <> [] -> playing s = false ->
  step ClickPlayPause s = set_startTimeRef None (set_playing true s).
Proof.
  intros Hr Hp. unfold step, handler, isFetched, commit.
  destruct (route s) as [| p r] eqn:E; [contradiction |].
  cbn [playing set_playing currentIndex]. rewrite Hp.
  cbn [Bool.eqb negb orb stopEffect frameEffect playing set_playing].
  reflexivity.
Qed.

Lemma step_reset (s : Engine) :
  route s <> [] -> step ClickReset s = zeroed (set_playing false s).
Proof.
  intros Hr. unfold step, handler, isFetched, commit.
  destruct (route s) as [| p r] eqn:E; [contradiction |].
  cbn [playing set_playing currentIndex zeroed].
  destruct (playing s);
    cbn [Bool.eqb negb orb stopEffect frameEffect playing set_playing zeroed
         currentIndex Nat.eqb route];
    try destruct (negb _); reflexivity.
Qed.

Lemma step_click_empty (e : event) (s : Engine) :
  route s = [] -> e = ClickPlayPause \/ e = ClickReset -> step e s = s.
Proof.
  intros Hr [-> | ->]; unfold step, handler, isFetched, commit; rewrite Hr;
    rewrite eqb_reflx, Nat.eqb_refl; reflexivity.
Qed.

Lemma step_fetched (data : list LocationPoint) (s : Engine) :
  step (Fetched data) s =
  if playing s then set_startTimeRef None (set_route data s)
  else zeroed (set_route data s).
Proof.
  unfold step, handler, isFetched, commit. cbn [orb].
  unfold stopEffect, frameEffect.
  change (playing (set_route data s)) with (playing s).
  destruct (playing s) eqn:Hp.
  - change (playing (set_route data s)) with (playing s). now rewrite Hp.
  - change (playing (zeroed (set_route data s))) with (playing s).
    now rewrite Hp.
Qed.

(* ------------------------------------------------------------------ *)
(** ** Every event, by cases *)

Lemma step_outcome (e : event) (s : Engine) : outcome e s (step e s).
Proof.
  destruct e as [data | | | now].
  - rewrite step_fetched. destruct (playing s) eqn:Hp.
    + now apply out_fetch_playing.
    + now apply out_fetch_idle.
  - destruct (route s) as [| p r] eqn:E.
    + rewrite step_click_empty by auto. constructor.
    + assert (Hr : route s <> []) by (rewrite E; discriminate).
      destruct (playing s) eqn:Hp.
      * rewrite step_pause by assumption. now apply out_stop.
      * rewrite step_play by assumption. now apply out_play.
  - destruct (route s) as [| p r] eqn:E.
    + rewrite step_click_empty by auto. constructor.
    + assert (Hr : route s <> []) by (rewrite E; discriminate).
      rewrite step_reset by assumption. now apply out_stop.
  - destruct (playing s) eqn:Hp;
      [| rewrite step_frame_idle by assumption; constructor].
    destruct (nth_error (route s) (currentIndex s + 1)) as [next |] eqn:Hn.
    + destruct (nth_error (route s) (currentIndex s)) as [current |] eqn:Hc.
      * rewrite (step_frame_sample now s current next Hp Hc Hn). cbv zeta.
        now apply (out_sample (Frame now) s now current next).
      * exfalso. apply nth_error_None in Hc.
        assert (H : nth_error (route s) (currentIndex s + 1) <> None)
          by (rewrite Hn; discriminate).
        apply nth_error_Some in H. lia.
    + destruct (route s) as [| p r] eqn:E.
      * replace (step (Frame now) s) with s; [constructor |].
        unfold step, handler, isFetched, commit, animate.
        rewrite E, Hp. cbn [length Nat.eqb negb orb].
        now rewrite Hp, Nat.eqb_refl.
      * assert (Hr : route s <> []) by (rewrite E; discriminate).
        rewrite step_frame_terminal.
        -- now apply out_stop.
        -- exact Hp.
        -- exact Hr.
        -- rewrite E. exact Hn.
Qed.

(** While the component is not playing it sits at its initial values. *)
Lemma step_keeps_rest (e : event) (s : Engine) :
  (playing s = false -> at_rest s) ->
  playing (step e s) = false -> at_rest (step e s).
Proof.
  intros IH.
  destruct (step_outcome e s)
    as [| data _ Hp | data _ _ | _ | _ _ _ | now current next _ Hp Hc Hn].
  - exact IH.
  - intros H. cbn in H. congruence.
  - intros _. apply at_rest_zeroed.
  - intros _. apply at_rest_zeroed.
  - cbn. discriminate.
  - rewrite (animate_sample now s current next Hp Hc Hn). cbv zeta.
    destruct (JS.ge _ 1); cbn; discriminate.
Qed.

Lemma run_at_rest (es : list event) :
  playing (run es initial) = false -> at_rest (run es initial).
Proof.
  induction es as [| e es IH] using rev_ind.
  - intros _. unfold at_rest. cbn. tauto.
  - rewrite run_snoc. now apply step_keeps_rest.
Qed.

(* ------------------------------------------------------------------ *)
(** ** C1: pause *)

(** C1, as stated, fails: in the state [state3] that the trace [trace3]
    reaches (second segment, one second elapsed) the Pause click puts the
    index and the elapsed time back to 0. *)
Lemma C1_pause_rewinds_state3 :
  run trace3 initial = state3
  /\ playing state3 = true
  /\ currentIndex state3 = 1%nat /\ elapsedTime state3 = Num 1
  /\ currentIndex (step ClickPlayPause state3) = 0%nat
  /\ elapsedTime (step ClickPlayPause state3) = Num 0
  /\ currentIndex (step ClickPlayPause state3) <> currentIndex state3
  /\ elapsedTime (step ClickPlayPause state3) <> elapsedTime state3.
Proof.
  split; [apply trace3_second_frame |].
  rewrite step_pause by (cbn; easy).
  cbn. repeat split; try discriminate.
  intros H. injection H as H. lra.
Qed.

(** C1 (amended): the Pause click on a playing component stops playback and
    the stop effect puts the index, the progress, the elapsed time, the
    distance and the speed back to 0; the state it leaves is the one the
    Reset click leaves. *)
Theorem C1_pause_zeroes_like_reset (s : Engine) :
  route s <> [] -> playing s = true ->
  let s' := step ClickPlayPause s in
  playing s' = false /\ currentIndex s' = 0%nat /\ progressRef s' = 0
  /\ elapsedTime s' = 0 /\ distanceTravelled s' = 0 /\ speed s' = 0
  /\ s' = step ClickReset s.
Proof.
  intros Hr Hp. cbv zeta.
  rewrite step_pause, step_reset by assumption.
  cbn. tauto.
Qed.

Lemma C1_pause_zeroes_like_reset_witness :
  route state3 <> [] /\ playing state3 = true
  /\ (let s' := step ClickPlayPause state3 in
      playing s' = false /\ currentIndex s' = 0%nat /\ progressRef s' = 0
      /\ elapsedTime s' = 0 /\ distanceTravelled s' = 0 /\ speed s' = 0
      /\ s' = step ClickReset state3).
Proof.
  assert (Hr : route state3 <> []) by (cbn; discriminate).
  assert (Hp : playing state3 = true) by reflexivity.
  split; [exact Hr |]. split; [exact Hp |].
  exact (C1_pause_zeroes_like_reset state3 Hr Hp).
Defined.

(* ------------------------------------------------------------------ *)
(** ** C2: the end of the route *)

(** C2, as stated, fails: on the two-waypoint route [routeOld] the frame
    that reaches the last waypoint leaves the index at 1 with [playing]
    still true, and the next frame, which stops playback, leaves the index
    and the elapsed time at 0. *)
Lemma C2_completion_rewinds_routeOld :
  run (traceOld ++ [Frame 60000]) initial = stateOld_last
  /\ length (route stateOld_last) = 2%nat
  /\ currentIndex stateOld_last = 1%nat /\ playing stateOld_last = true
  /\ elapsedTime stateOld_last = Num 10
  /\ playing (step (Frame 60016) stateOld_last) = false
  /\ currentIndex (step (Frame 60016) stateOld_last) = 0%nat
  /\ currentIndex (step (Frame 60016) stateOld_last)
     <> (length (route stateOld_last) - 1)%nat
  /\ elapsedTime (step (Frame 60016) stateOld_last) = Num 0.
Proof.
  split; [apply traceOld_last_frame |].
  rewrite step_frame_terminal by (cbn; easy).
  cbn. repeat split; discriminate.
Qed.

(** C2 (amended): on a route of N >= 2 waypoints, the frame that advances
    out of the last segment leaves the index at N-1 with [playing] still
    true; the frame after it finds no next waypoint and stops playback, and
    the stop effect puts the index, the elapsed time, the distance and the
    speed back to 0. *)
Theorem C2_completion_stops_and_zeroes (s : Engine) (now now' : R) :
  playing s = true ->
  (currentIndex s + 2 = length (route s))%nat ->
  let s1 := step (Frame now) s in
  currentIndex s1 <> currentIndex s ->
  (currentIndex s1 = (length (route s) - 1)%nat /\ playing s1 = true)
  /\ (let s2 := step (Frame now') s1 in
      playing s2 = false /\ currentIndex s2 = 0%nat
      /\ elapsedTime s2 = 0 /\ distanceTravelled s2 = 0 /\ speed s2 = 0).
Proof.
  intros Hp Hlen.
  destruct (nth_error (route s) (currentIndex s)) as [current |] eqn:Hc;
    [| apply nth_error_None in Hc; lia].
  destruct (nth_error (route s) (currentIndex s + 1)) as [next |] eqn:Hn;
    [| apply nth_error_None in Hn; lia].
  cbv zeta.
  rewrite (step_frame_sample now s current next Hp Hc Hn).
  rewrite (animate_sample now s current next Hp Hc Hn). cbv zeta.
  destruct (JS.ge (tickProgress now s current next) 1).
  - intros _. split; [cbn; split; [lia | reflexivity] |].
    rewrite step_frame_terminal.
    + cbn. tauto.
    + reflexivity.
    + cbn. intros E. rewrite E in Hlen. cbn in Hlen. lia.
    + cbn [route currentIndex set_startTimeRef].
      apply nth_error_None. lia.
  - cbn [currentIndex]. intros H. now contradiction H.
Qed.

Lemma C2_completion_stops_and_zeroes_witness :
  playing stateOld_first = true
  /\ (currentIndex stateOld_first + 2 = length (route stateOld_first))%nat
  /\ currentIndex (step (Frame 60000) stateOld_first)
     <> currentIndex stateOld_first
  /\ (currentIndex (step (Frame 60000) stateOld_first)
      = (length (route stateOld_first) - 1)%nat
      /\ playing (step (Frame 60000) stateOld_first) = true)
  /\ (let s2 := step (Frame 60016) (step (Frame 60000) stateOld_first) in
      playing s2 = false /\ currentIndex s2 = 0%nat
      /\ elapsedTime s2 = 0 /\ distanceTravelled s2 = 0 /\ speed s2 = 0).
Proof.
  assert (Hp : playing stateOld_first = true) by reflexivity.
  assert (Hl : (currentIndex stateOld_first + 2
                = length (route stateOld_first))%nat) by reflexivity.
  assert (Hi : currentIndex (step (Frame 60000) stateOld_first)
               <> currentIndex stateOld_first).
  { rewrite <- traceOld_first_frame, <- run_snoc, traceOld_last_frame,
      traceOld_first_frame. cbn. discriminate. }
  split; [exact Hp |]. split; [exact Hl |]. split; [exact Hi |].
  exact (C2_completion_stops_and_zeroes stateOld_first 60000 60016 Hp Hl Hi).
Defined.

(* ------------------------------------------------------------------ *)
(** ** C3: the progress within a segment *)

Lemma min_one_not_above (x : num) : JS.gt (JS.min x 1) 1 = false.
Proof.
  destruct x as [x | | |]; cbn; try reflexivity.
  - unfold JS.Rleb. destruct (Rle_dec x 1); cbn; apply Rltb_false; lra.
  - apply Rltb_false; lra.
Qed.

Lemma zero_not_above_one : JS.gt 0 1 = false.
Proof. cbn. apply Rltb_false; lra. Qed.

Lemma step_progress_not_above (e : event) (s : Engine) :
  JS.gt (progressRef s) 1 = false -> JS.gt (progressRef (step e s)) 1 = false.
Proof.
  intros IH.
  destruct (step_outcome e s)
    as [| data _ _ | data _ _ | _ | _ _ _ | now current next _ Hp Hc Hn];
    try assumption; try apply zero_not_above_one.
  rewrite (animate_sample now s current next Hp Hc Hn). cbv zeta.
  destruct (JS.ge (tickProgress now s current next) 1) eqn:Hadv;
    cbn [progressRef set_startTimeRef]; try apply zero_not_above_one.
  apply min_one_not_above.
Qed.

Lemma step_index_change_resets (e : event) (s : Engine) :
  currentIndex (step e s) <> currentIndex s -> progressRef (step e s) = 0.
Proof.
  destruct (step_outcome e s)
    as [| data _ _ | data _ _ | _ | _ _ _ | now current next _ Hp Hc Hn];
    try (cbn; intros H; (reflexivity || now contradiction H)).
  rewrite (animate_sample now s current next Hp Hc Hn). cbv zeta.
  destruct (JS.ge (tickProgress now s current next) 1) eqn:Hadv; cbn.
  - reflexivity.
  - intros H. now contradiction H.
Qed.

(** C3, as stated, fails: the third frame of [trace3], the first one in the
    second segment, computes the progress -1, which is below 0. *)
Lemma C3_progress_negative_state3_third :
  run (trace3 ++ [Frame 6500]) initial = state3_third
  /\ progressRef state3_third = Num (-1)
  /\ JS.ge (progressRef state3_third) 0 = false.
Proof.
  split; [apply trace3_third_frame |]. split; [reflexivity |].
  cbn. apply Rleb_false. lra.
Qed.

(** C3 (amended): in every state that events can reach, the progress never
    exceeds 1 (it is clamped from above only), and whenever an event changes
    the current index the progress is 0 afterwards. *)
Theorem C3_progress_at_most_one_reset_on_advance (es : list event) :
  JS.gt (progressRef (run es initial)) 1 = false
  /\ forall e : event,
      currentIndex (step e (run es initial)) <> currentIndex (run es initial) ->
      progressRef (step e (run es initial)) = 0.
Proof.
  split.
  - induction es as [| e es IH] using rev_ind.
    + apply zero_not_above_one.
    + rewrite run_snoc. now apply step_progress_not_above.
  - intros e. apply step_index_change_resets.
Qed.

Lemma C3_progress_at_most_one_reset_on_advance_witness :
  JS.gt (progressRef
           (run [Fetched route3; ClickPlayPause; Frame 5000] initial)) 1
  = false
  /\ currentIndex
       (step (Frame 6000)
          (run [Fetched route3; ClickPlayPause; Frame 5000] initial))
     <> currentIndex (run [Fetched route3; ClickPlayPause; Frame 5000] initial)
  /\ progressRef
       (step (Frame 6000)
          (run [Fetched route3; ClickPlayPause; Frame 5000] initial))
     = 0.
Proof.
  assert (Hi : currentIndex
                 (step (Frame 6000)
                    (run [Fetched route3; ClickPlayPause; Frame 5000] initial))
               <> currentIndex
                    (run [Fetched route3; ClickPlayPause; Frame 5000] initial)).
  { rewrite <- run_snoc. change (_ ++ [Frame 6000]) with trace3.
    rewrite trace3_second_frame, trace3_first_frame. cbn. discriminate. }
  destruct (C3_progress_at_most_one_reset_on_advance
              [Fetched route3; ClickPlayPause; Frame 5000]) as [Hle Hreset].
  split; [exact Hle |]. split; [exact Hi |].
  exact (Hreset (Frame 6000) Hi).
Defined.

(* ------------------------------------------------------------------ *)
(** ** C4: a segment of duration 0 *)

Lemma tickElapsed_finite (now : R) (s : Engine) :
  tickElapsed now s = Num ((now - startOrigin (startTimeRef s) now) / 1000).
Proof. unfold tickElapsed. now js_finite. Qed.

Lemma timeDiff_finite (current next : LocationPoint) :
  timeDiff current next = Num ((timestamp next - timestamp current) / 1000).
Proof. unfold timeDiff. now js_finite. Qed.





(* ------------------------------------------------------------------ *)
(** ** C5: the distance travelled *)

Lemma stateSame_play_reached :
  run [Fetched routeSame; ClickPlayPause] initial = stateSame_play.
Proof. reflexivity. Qed.

(** C5, as stated, fails: on [routeSame] the first frame
    samples the position (NaN, NaN), and the second frame, which keeps
    playing, adds the distance from it, NaN, to the distance 0; NaN is not
    greater than or equal to 0. *)
Lemma C5_distance_nan_routeSame :
  run traceSame initial = stateSame_first
  /\ step (Frame 6000) stateSame_first = stateSame_second
  /\ playing stateSame_first = true /\ playing stateSame_second = true
  /\ distanceTravelled stateSame_first = Num 0
  /\ distanceTravelled stateSame_second = NaN
  /\ JS.ge (distanceTravelled stateSame_second)
           (distanceTravelled stateSame_first) = false.
Proof.
  split; [apply traceSame_first_frame |].
  split; [| cbn; tauto].
  rewrite <- traceSame_first_frame, <- run_snoc.
  apply traceSame_second_frame.
Qed.

Lemma ge_refl_or_nan (d : num) : JS.ge d d = true \/ d = NaN.
Proof.
  destruct d as [x | | |]; cbn; auto.
  left. apply Rleb_true. lra.
Qed.

Lemma add_nonneg_ge_or_nan (d : num) (h : R) :
  0 <= h -> JS.ge (d + h)%js d = true \/ (d + h)%js = NaN.
Proof.
  intros Hh. destruct d as [x | | |]; cbn; auto.
  left. apply Rleb_true. lra.
Qed.

Lemma add_nan (d : num) : (d + NaN)%js = NaN.
Proof. now destruct d. Qed.

Lemma ge_num_le (x y : R) : JS.ge (Num y) (Num x) = true -> x <= y.
Proof.
  cbn. unfold JS.Rleb. destruct (Rle_dec x y); [easy | discriminate].
Qed.

(** C5 (amended): after every frame that starts and ends in the playing
    state, the distance travelled is greater than or equal to its previous
    value, or it is NaN; so between two values that are numbers it never
    decreases. *)
Theorem C5_distance_grows_or_nan (now : R) (s : Engine) :
  playing s = true -> playing (step (Frame now) s) = true ->
  (JS.ge (distanceTravelled (step (Frame now) s)) (distanceTravelled s) = true
   \/ distanceTravelled (step (Frame now) s) = NaN)
  /\ (forall x y : R,
        distanceTravelled s = Num x ->
        distanceTravelled (step (Frame now) s) = Num y -> x <= y).
Proof.
  intros Hp Hp'.
  assert (H : JS.ge (distanceTravelled (step (Frame now) s))
                (distanceTravelled s) = true
              \/ distanceTravelled (step (Frame now) s) = NaN).
  { destruct (step_outcome (Frame now) s)
      as [| data E _ | data E _ | _ | E _ _ | t current next E _ Hc Hn];
      try discriminate.
    - apply ge_refl_or_nan.
    - injection E as <-.
      pose proof (step_frame_sample now s current next Hp Hc Hn) as Hs.
      cbv zeta in Hs. rewrite <- Hs.
      rewrite (frame_distance now s current next Hp Hc Hn).
      destruct (lastPositionRef s) as [[plat plng] |];
        [| apply ge_refl_or_nan].
      destruct (haversine_number_or_nan plat plng
                  (fst (tickPos now s current next))
                  (snd (tickPos now s current next)))
        as [-> | (h & -> & Hh & _)].
      + right. apply add_nan.
      + now apply add_nonneg_ge_or_nan. }
  split; [exact H |].
  intros x y Hx Hy. rewrite Hx, Hy in H.
  destruct H as [H | H]; [now apply ge_num_le | discriminate].
Qed.

Lemma C5_distance_grows_or_nan_witness :
  playing state3_first = true
  /\ playing (step (Frame 6000) state3_first) = true
  /\ (JS.ge (distanceTravelled (step (Frame 6000) state3_first))
           (distanceTravelled state3_first) = true
      \/ distanceTravelled (step (Frame 6000) state3_first) = NaN)
  /\ (forall x y : R,
        distanceTravelled state3_first = Num x ->
        distanceTravelled (step (Frame 6000) state3_first) = Num y ->
        x <= y).
Proof.
  assert (Hp : playing state3_first = true) by reflexivity.
  assert (Hp' : playing (step (Frame 6000) state3_first) = true).
  { rewrite <- trace3_first_frame, <- run_snoc.
    change (_ ++ [Frame 6000]) with trace3.
    rewrite trace3_second_frame. reflexivity. }
  split; [exact Hp |]. split; [exact Hp' |].
  exact (C5_distance_grows_or_nan 6000 state3_first Hp Hp').
Defined.

(* ------------------------------------------------------------------ *)
(** ** C6: the elapsed time *)

(** C6: on [route3], playing with frames at 5000, 6000 and 6500 ms, the
    second frame sets the elapsed time to 1 and advances the index; the
    third frame, 1.5 s after the first frame of the session, sets the
    elapsed time to 0, not to 1.5: the origin was reset at the advance. *)
Theorem C6_elapsed_rebased_state3_third :
  run trace3 initial = state3
  /\ run (trace3 ++ [Frame 6500]) initial = state3_third
  /\ playing state3 = true /\ playing state3_third = true
  /\ elapsedTime state3 = Num 1
  /\ elapsedTime state3_third = Num 0
  /\ elapsedTime state3_third <> Num ((6500 - 5000) / 1000).
Proof.
  split; [apply trace3_second_frame |].
  split; [apply trace3_third_frame |].
  cbn. repeat split. intros H. injection H as H. lra.
Qed.

(** After a sampling frame the elapsed time is the wall-clock time, in
    seconds, since the origin [startTimeRef]; the origin is the instant of
    the first frame after it was cleared, and every frame that advances the
    index clears it. *)
Lemma elapsed_measured_from_origin
    (now : R) (s : Engine) (current next : LocationPoint) :
  playing s = true ->
  nth_error (route s) (currentIndex s) = Some current ->
  nth_error (route s) (currentIndex s + 1) = Some next ->
  let s' := step (Frame now) s in
  let origin := startOrigin (startTimeRef s) now in
  elapsedTime s' = Num ((now - origin) / 1000)
  /\ (startTimeRef s = None -> elapsedTime s' = Num 0)
  /\ (currentIndex s' <> currentIndex s -> startTimeRef s' = None)
  /\ (currentIndex s' = currentIndex s -> startTimeRef s' = Some origin).
Proof.
  intros Hp Hc Hn. cbv zeta.
  rewrite (frame_elapsed now s current next Hp Hc Hn), tickElapsed_finite.
  rewrite (frame_index now s current next Hp Hc Hn).
  rewrite (frame_start now s current next Hp Hc Hn).
  split; [reflexivity |]. split.
  - intros E. rewrite E. cbn. f_equal. lra.
  - destruct (JS.ge (tickProgress now s current next) 1); split.
    + reflexivity.
    + intros H. lia.
    + intros H. now contradiction H.
    + reflexivity.
Qed.

(* ------------------------------------------------------------------ *)
(** ** C7: the speed *)

Lemma Ratan2_pos (y x : R) : 0 < y -> 0 <= x -> 0 < JS.Ratan2 y x.
Proof.
  intros Hy Hx. unfold JS.Ratan2.
  destruct (Rlt_dec 0 x) as [Hpos | Hn].
  - rewrite <- atan_0. apply atan_increasing.
    apply Rdiv_lt_0_compat; lra.
  - destruct (Rlt_dec x 0); [lra |].
    destruct (Rlt_dec 0 y); [pose proof PI_RGT_0; lra | lra].
Qed.

Lemma hav_real_pos (lat1 lon1 lat2 lon2 : R) :
  0 < hav_a lat1 lon1 lat2 lon2 -> 0 < hav_real lat1 lon1 lat2 lon2.
Proof.
  intros Ha. unfold hav_real. cbv zeta.
  pose proof (Ratan2_pos (sqrt (hav_a lat1 lon1 lat2 lon2))
                (sqrt (1 - hav_a lat1 lon1 lat2 lon2))
                (sqrt_lt_R0 _ Ha) (sqrt_pos _)).
  lra.
Qed.

(** A tenth of a degree along the equator is a positive distance. *)
Lemma hav_tenth_degree_pos : 0 < hav_real 0 0 0 (1 / 10).
Proof.
  apply hav_real_pos. unfold hav_a. cbv zeta.
  replace ((0 - 0) * PI / 180 / 2) with 0 by lra.
  replace (0 * PI / 180) with 0 by lra.
  rewrite sin_0, cos_0.
  assert (Hs : 0 < sin ((1 / 10 - 0) * PI / 180 / 2)).
  { pose proof PI_RGT_0. apply sin_gt_0; lra. }
  nra.
Qed.

(** The divisor of the speed is the wall-clock time minus the timestamp of
    the waypoint that was current at the previous frame. *)
Lemma speed_divisor
    (now : R) (s : Engine) (current next : LocationPoint) (t : R) :
  playing s = true ->
  nth_error (route s) (currentIndex s) = Some current ->
  nth_error (route s) (currentIndex s + 1) = Some next ->
  lastTimestampRef s = Some t ->
  lastTimestampRef (step (Frame now) s) = Some (timestamp current)
  /\ secDiff now (lastTimestampRef s) = Num ((now - t) / 1000).
Proof.
  intros Hp Hc Hn Ht.
  rewrite (frame_lastTimestamp now s current next Hp Hc Hn), Ht.
  unfold secDiff. js_finite. split; reflexivity.
Qed.

Lemma traceOld_second_frame :
  step (Frame 51000) stateOld_first = stateOld_second.
Proof.
  unfold stateOld_second, stateOld_first, routeOld.
  js_eval. hav_to 0 0 0 (1 / 10). js_same.
Qed.

(** C7: on [routeOld], whose first waypoint is stamped at the epoch, with
    frames at 50000 ms and 51000 ms, the second frame moves the marker by a
    positive distance d in one second of wall-clock time and sets the speed
    to d / 51, the divisor being the 51 s between the wall clock and the
    timestamp of the waypoint, not the 1 s since the previous frame. *)
Theorem C7_speed_divides_by_route_time :
  run traceOld initial = stateOld_first
  /\ startTimeRef stateOld_first = Some 50000
  /\ lastTimestampRef stateOld_first = Some (timestamp (mkPoint 0 0 0))
  /\ speed (step (Frame 51000) stateOld_first)
     = Num (hav_real 0 0 0 (1 / 10) / 51)
  /\ distanceTravelled (step (Frame 51000) stateOld_first)
     = Num (hav_real 0 0 0 (1 / 10))
  /\ 0 < hav_real 0 0 0 (1 / 10)
  /\ hav_real 0 0 0 (1 / 10) / 51
     <> hav_real 0 0 0 (1 / 10) / ((51000 - 50000) / 1000).
Proof.
  split; [apply traceOld_first_frame |].
  rewrite traceOld_second_frame. cbn.
  pose proof hav_tenth_degree_pos as Hd.
  repeat split; try assumption.
  intros E. field_simplify in E. lra.
Qed.

(* ------------------------------------------------------------------ *)
(** ** C8: what a frame adds to the distance *)




(* ------------------------------------------------------------------ *)
(** ** Further properties of [haversineDistance] *)

(** X1: whatever its arguments are, the distance is never a negative
    number, never an infinity and never a number above half the
    circumference of the sphere: it is NaN or a number between 0 and
    6371000 * PI. *)
Theorem haversine_nan_or_within_half_circumference
    (lat1 lon1 lat2 lon2 : num) :
  haversineDistance lat1 lon1 lat2 lon2 = NaN
  \/ exists h : R,
       haversineDistance lat1 lon1 lat2 lon2 = Num h
       /\ 0 <= h <= 6371000 * PI.
Proof. apply haversine_number_or_nan. Qed.

(** The angle recovered from the sine and the cosine of a half angle in
    [0, PI/2]. *)
Lemma Ratan2_sin_cos (u : R) :
  0 <= u <= PI / 2 -> JS.Ratan2 (sin u) (cos u) = u.
Proof.
  intros [H0 H1]. pose proof PI_RGT_0 as Hpi. unfold JS.Ratan2.
  destruct (Rle_lt_or_eq_dec u (PI / 2) H1) as [Hlt | ->].
  - assert (Hc : 0 < cos u) by (apply cos_gt_0; lra).
    destruct (Rlt_dec 0 (cos u)); [| contradiction].
    change (sin u / cos u) with (tan u). apply atan_tan. lra.
  - rewrite cos_PI2, sin_PI2.
    destruct (Rlt_dec 0 0); [lra |].
    destruct (Rlt_dec 0 1); [reflexivity | lra].
Qed.

Lemma hav_real_of_half_angle (lat1 lon1 lat2 lon2 u : R) :
  0 <= u <= PI / 2 ->
  hav_a lat1 lon1 lat2 lon2 = sin u * sin u ->
  hav_real lat1 lon1 lat2 lon2 = 6371000 * (2 * u).
Proof.
  intros Hu Ha. pose proof PI_RGT_0 as Hpi. unfold hav_real. cbv zeta.
  rewrite Ha.
  assert (Hs : 0 <= sin u) by (apply sin_ge_0; lra).
  assert (Hc : 0 <= cos u) by (apply cos_ge_0; lra).
  rewrite (sqrt_square _ Hs).
  replace (1 - sin u * sin u) with (cos u * cos u)
    by (pose proof (sin2_cos2 u) as H; unfold Rsqr in H; lra).
  rewrite (sqrt_square _ Hc), Ratan2_sin_cos by assumption.
  reflexivity.
Qed.

(** X2: between two points of one meridian whose latitudes differ by at
    most 180 degrees, and between two points of the equator whose longitudes
    differ by at most 180 degrees, the distance is the length of the arc:
    the radius times the difference of the angles in radians. *)
Theorem haversine_meridian_and_equator_arc (a b lon : R) :
  0 <= b - a <= 180 ->
  haversineDistance a lon b lon = Num (6371000 * ((b - a) * PI / 180))
  /\ haversineDistance 0 a 0 b = Num (6371000 * ((b - a) * PI / 180)).
Proof.
  intros Hab. pose proof PI_RGT_0 as Hpi.
  assert (Hu : 0 <= (b - a) * PI / 180 / 2 <= PI / 2) by (split; nra).
  rewrite !haversine_finite. split; f_equal.
  - rewrite (hav_real_of_half_angle a lon b lon _ Hu); [lra |].
    unfold hav_a. cbv zeta.
    replace ((lon - lon) * PI / 180 / 2) with 0 by lra.
    rewrite sin_0. ring.
  - rewrite (hav_real_of_half_angle 0 a 0 b _ Hu); [lra |].
    unfold hav_a. cbv zeta.
    replace ((0 - 0) * PI / 180 / 2) with 0 by lra.
    replace (0 * PI / 180) with 0 by lra.
    rewrite sin_0, cos_0. ring.
Qed.

Lemma haversine_meridian_and_equator_arc_witness :
  0 <= 90 - 0 <= 180
  /\ haversineDistance 0 0 90 0 = Num (6371000 * ((90 - 0) * PI / 180))
  /\ haversineDistance 0 0 0 90 = Num (6371000 * ((90 - 0) * PI / 180)).
Proof.
  assert (H : 0 <= 90 - 0 <= 180) by lra.
  split; [exact H |].
  exact (haversine_meridian_and_equator_arc 0 90 0 H).
Defined.

(** X3: the distance depends on the two longitudes through their difference
    only: moving both points by the same angle along their parallels does
    not change it. *)
Theorem haversine_longitude_shift (lat1 lon1 lat2 lon2 k : R) :
  haversineDistance lat1 (lon1 + k) lat2 (lon2 + k)
  = haversineDistance lat1 lon1 lat2 lon2.
Proof.
  rewrite !haversine_finite. f_equal. unfold hav_real, hav_a. cbv zeta.
  replace (lon2 + k - (lon1 + k)) with (lon2 - lon1) by lra.
  reflexivity.
Qed.

(* ------------------------------------------------------------------ *)
(** ** Further properties of the effects and the buttons *)

(** X4: whatever events have happened since the mount, a component that is
    not playing has its index, elapsed time, distance, speed and progress at
    0 and holds no previous sample. *)
Theorem idle_component_is_at_rest (es : list event) :
  playing (run es initial) = false -> at_rest (run es initial).
Proof. apply run_at_rest. Qed.

Lemma idle_component_is_at_rest_witness :
  playing (run (trace3 ++ [ClickPlayPause]) initial) = false
  /\ at_rest (run (trace3 ++ [ClickPlayPause]) initial).
Proof.
  assert (H : playing (run (trace3 ++ [ClickPlayPause]) initial) = false).
  { rewrite run_snoc, trace3_second_frame. reflexivity. }
  split; [exact H |].
  exact (idle_component_is_at_rest (trace3 ++ [ClickPlayPause]) H).
Defined.

Lemma step_keeps_route (e : event) (s : Engine) :
  isFetched e = false -> route (step e s) = route s.
Proof.
  intros He.
  destruct (step_outcome e s)
    as [| data E _ | data E _ | _ | _ _ _ | now current next _ Hp Hc Hn];
    try reflexivity; try (subst e; discriminate).
  rewrite (animate_sample now s current next Hp Hc Hn). cbv zeta.
  now destruct (JS.ge _ 1).
Qed.

(** X5: only a resolved fetch changes the route: it installs the fetched
    list, and no click and no frame touches it. *)
Theorem route_changes_only_by_fetch (e : event) (s : Engine) :
  route (step e s)
  = match e with Fetched data => data | _ => route s end.
Proof.
  destruct e as [data | | | now]; try (now apply step_keeps_route).
  rewrite step_fetched. now destruct (playing s).
Qed.

(* ------------------------------------------------------------------ *)
(** ** The index stays inside the route *)

Lemma step_keeps_index_bound (e : event) (s : Engine) :
  isFetched e = false ->
  (currentIndex s <= length (route s) - 1)%nat ->
  (currentIndex (step e s) <= length (route (step e s)) - 1)%nat.
Proof.
  intros He IH. rewrite (step_keeps_route e s He).
  destruct (step_outcome e s)
    as [| data E _ | data E _ | _ | _ _ _ | now current next _ Hp Hc Hn];
    try assumption; try (subst e; discriminate); try (cbn; lia).
  pose proof (next_in_range s next Hn) as Hlt.
  rewrite (animate_sample now s current next Hp Hc Hn). cbv zeta.
  destruct (JS.ge _ 1); cbn; lia.
Qed.

Lemma run_after_fetch (data : list LocationPoint) (es : list event) :
  no_fetch es ->
  route (run (Fetched data :: es) initial) = data
  /\ (currentIndex (run (Fetched data :: es) initial) <= length data - 1)%nat.
Proof.
  intros Hes. induction es as [| e es IH] using rev_ind.
  - cbn. split; [reflexivity | lia].
  - apply Forall_app in Hes as [Hes He]. inversion He as [| ? ? Hf _]; subst.
    destruct (IH Hes) as [Hr Hi].
    change (Fetched data :: es ++ [e]) with ((Fetched data :: es) ++ [e]).
    rewrite run_snoc. split.
    + now rewrite step_keeps_route.
    + pose proof (step_keeps_index_bound e
                    (run (Fetched data :: es) initial) Hf) as H.
      rewrite Hr in H. specialize (H Hi).
      now rewrite step_keeps_route, Hr in H.
Qed.

Lemma after_fetch_in_range (data : list LocationPoint) (es : list event) :
  data <> [] -> no_fetch es ->
  let s := run (Fetched data :: es) initial in
  route s = data
  /\ (currentIndex s < length data)%nat
  /\ (exists p, nth_error (route s) (currentIndex s) = Some p)
  /\ (exists pos, currentPos s = Some pos).
Proof.
  intros Hd Hes. cbv zeta.
  destruct (run_after_fetch data es Hes) as [Hr Hi].
  set (s := run (Fetched data :: es) initial) in *.
  assert (Hlen : (0 < length data)%nat)
    by (destruct data; [contradiction | cbn; lia]).
  assert (Hlt : (currentIndex s < length data)%nat) by lia.
  assert (Hcur : exists p, nth_error (route s) (currentIndex s) = Some p).
  { destruct (nth_error (route s) (currentIndex s)) as [p |] eqn:E; eauto.
    apply nth_error_None in E. rewrite Hr in E. lia. }
  repeat split; try assumption.
  destruct Hcur as [p Hp]. unfold currentPos. rewrite Hp.
  destruct (nth_error (route s)
              (Nat.min (currentIndex s + 1) (length (route s) - 1)))
    as [q |] eqn:E; eauto.
  apply nth_error_None in E. rewrite Hr in E. lia.
Qed.

(** X6: after the one fetch of the mount has delivered a non-empty route,
    whatever clicks and frames follow, the current index is an index of the
    route, so the waypoint the render reads exists and the rendered position
    is defined. *)
Theorem index_stays_inside_route
    (data : list LocationPoint) (es : list event) :
  data <> [] -> no_fetch es ->
  let s := run (Fetched data :: es) initial in
  route s = data
  /\ (currentIndex s < length data)%nat
  /\ (exists p, nth_error (route s) (currentIndex s) = Some p)
  /\ (exists pos, currentPos s = Some pos).
Proof. apply after_fetch_in_range. Qed.

Lemma no_fetch_clicks_and_frames :
  no_fetch [ClickPlayPause; Frame 5000; Frame 6000].
Proof. repeat constructor. Qed.

Lemma index_stays_inside_route_witness :
  route3 <> [] /\ no_fetch [ClickPlayPause; Frame 5000; Frame 6000]
  /\ (let s := run (Fetched route3 :: [ClickPlayPause; Frame 5000; Frame 6000])
                 initial in
      route s = route3
      /\ (currentIndex s < length route3)%nat
      /\ (exists p, nth_error (route s) (currentIndex s) = Some p)
      /\ (exists pos, currentPos s = Some pos)).
Proof.
  assert (Hd : route3 <> []) by discriminate.
  split; [exact Hd |]. split; [exact no_fetch_clicks_and_frames |].
  exact (index_stays_inside_route route3
           [ClickPlayPause; Frame 5000; Frame 6000]
           Hd no_fetch_clicks_and_frames).
Defined.

(** X7: under the same conditions the travelled path that is drawn holds
    exactly the first [currentIndex + 1] waypoints of the route, in order,
    and so ends at the current waypoint. *)
Theorem traveledPath_ends_at_current_waypoint
    (data : list LocationPoint) (es : list event) :
  data <> [] -> no_fetch es ->
  let s := run (Fetched data :: es) initial in
  length (traveledPath s) = S (currentIndex s)
  /\ (forall i, (i <= currentIndex s)%nat ->
        nth_error (traveledPath s) i
        = option_map (fun p => (latitude p, longitude p)) (nth_error data i))
  /\ (exists p, nth_error data (currentIndex s) = Some p
        /\ nth_error (traveledPath s) (currentIndex s)
           = Some (latitude p, longitude p)).
Proof.
  intros Hd Hes. cbv zeta.
  destruct (after_fetch_in_range data es Hd Hes)
    as (Hr & Hlt & [p Hp] & _).
  set (s := run (Fetched data :: es) initial) in *.
  assert (Hnth : forall i, (i <= currentIndex s)%nat ->
            nth_error (traveledPath s) i
            = option_map (fun p => (latitude p, longitude p))
                (nth_error data i)).
  { intros i Hi. unfold traveledPath.
    rewrite nth_error_map, nth_error_firstn, Hr.
    replace (i <? currentIndex s + 1)%nat with true
      by (symmetry; apply Nat.ltb_lt; lia).
    reflexivity. }
  split; [| split].
  - unfold traveledPath. rewrite length_map, length_firstn, Hr. lia.
  - exact Hnth.
  - exists p. rewrite Hr in Hp. split; [exact Hp |].
    rewrite Hnth by lia. now rewrite Hp.
Qed.

Lemma traveledPath_ends_at_current_waypoint_witness :
  route3 <> [] /\ no_fetch [ClickPlayPause; Frame 5000; Frame 6000]
  /\ (let s := run (Fetched route3 :: [ClickPlayPause; Frame 5000; Frame 6000])
                 initial in
      length (traveledPath s) = S (currentIndex s)
      /\ (forall i, (i <= currentIndex s)%nat ->
            nth_error (traveledPath s) i
            = option_map (fun p => (latitude p, longitude p))
                (nth_error route3 i))
      /\ (exists p, nth_error route3 (currentIndex s) = Some p
            /\ nth_error (traveledPath s) (currentIndex s)
               = Some (latitude p, longitude p))).
Proof.
  assert (Hd : route3 <> []) by discriminate.
  split; [exact Hd |]. split; [exact no_fetch_clicks_and_frames |].
  exact (traveledPath_ends_at_current_waypoint route3
           [ClickPlayPause; Frame 5000; Frame 6000]
           Hd no_fetch_clicks_and_frames).
Defined.

(* ------------------------------------------------------------------ *)
(** ** Starting over *)

Lemma play_after_reset (s : Engine) :
  route s <> [] ->
  step ClickPlayPause (step ClickReset s) = started (route s).
Proof.
  intros Hr. rewrite step_reset by assumption.
  rewrite step_play by (cbn; first [assumption | reflexivity]). reflexivity.
Qed.

Lemma play_after_pause (s : Engine) :
  route s <> [] -> playing s = true ->
  step ClickPlayPause (step ClickPlayPause s) = started (route s).
Proof.
  intros Hr Hp. rewrite (step_pause s Hr Hp).
  rewrite step_play by (cbn; first [assumption | reflexivity]). reflexivity.
Qed.

Lemma play_after_load (data : list LocationPoint) :
  data <> [] ->
  step ClickPlayPause (step (Fetched data) initial) = started data.
Proof.
  intros Hd. rewrite step_fetched. cbn [playing initial].
  rewrite step_play by (cbn; first [assumption | reflexivity]). reflexivity.
Qed.

(** X8: pressing Play after Reset, pressing Play after Pause, and the first
    Play after the route was loaded all start from one and the same state,
    so whatever frames and clicks follow lead to the same states: a replay
    repeats the first run sample for sample when the frames come at the same
    instants. *)
Theorem replay_starts_from_the_same_state (s : Engine) (es : list event) :
  route s <> [] ->
  run (ClickReset :: ClickPlayPause :: es) s = run es (started (route s))
  /\ (playing s = true ->
      run (ClickPlayPause :: ClickPlayPause :: es) s
      = run es (started (route s)))
  /\ run (Fetched (route s) :: ClickPlayPause :: es) initial
     = run es (started (route s)).
Proof.
  intros Hr. split; [| split].
  - cbn [run fold_left]. now rewrite play_after_reset.
  - intros Hp. cbn [run fold_left]. now rewrite play_after_pause.
  - cbn [run fold_left]. now rewrite play_after_load.
Qed.

Lemma replay_starts_from_the_same_state_witness :
  route state3 <> []
  /\ run (ClickReset :: ClickPlayPause :: [Frame 7000]) state3
     = run [Frame 7000] (started (route state3))
  /\ (playing state3 = true ->
      run (ClickPlayPause :: ClickPlayPause :: [Frame 7000]) state3
      = run [Frame 7000] (started (route state3)))
  /\ run (Fetched (route state3) :: ClickPlayPause :: [Frame 7000]) initial
     = run [Frame 7000] (started (route state3)).
Proof.
  assert (Hr : route state3 <> []) by (cbn; discriminate).
  split; [exact Hr |].
  exact (replay_starts_from_the_same_state state3 [Frame 7000] Hr).
Defined.

(** X9: on a route of one waypoint nothing is animated: from any state,
    a click on Play/Pause followed by a frame leaves the component stopped,
    with the index and the telemetry at 0. *)
Theorem single_waypoint_never_animates
    (p : LocationPoint) (s : Engine) (now : R) :
  route s = [p] ->
  let s' := run [ClickPlayPause; Frame now] s in
  playing s' = false /\ at_rest s' /\ route s' = [p].
Proof.
  intros Hr. cbv zeta. cbn [run fold_left].
  assert (Hne : route s <> []) by (rewrite Hr; discriminate).
  destruct (playing s) eqn:Hp.
  - rewrite (step_pause s Hne Hp).
    rewrite step_frame_idle by reflexivity.
    split; [reflexivity |]. split; [apply at_rest_zeroed | exact Hr].
  - rewrite (step_play s Hne Hp).
    rewrite step_frame_terminal.
    + split; [reflexivity |]. split; [apply at_rest_zeroed | exact Hr].
    + reflexivity.
    + exact Hne.
    + cbn [route currentIndex set_startTimeRef set_playing]. rewrite Hr.
      destruct (currentIndex s + 1)%nat as [| [| n]] eqn:E;
        [lia | reflexivity | reflexivity].
Qed.

Lemma single_waypoint_never_animates_witness :
  route (mkEngine [mkPoint 0 0 0] 0 false 0 0 0 None None None 0)
  = [mkPoint 0 0 0]
  /\ (let s' := run [ClickPlayPause; Frame 5000]
                  (mkEngine [mkPoint 0 0 0] 0 false 0 0 0 None None None 0) in
      playing s' = false /\ at_rest s' /\ route s' = [mkPoint 0 0 0]).
Proof.
  split; [reflexivity |].
  exact (single_waypoint_never_animates (mkPoint 0 0 0)
           (mkEngine [mkPoint 0 0 0] 0 false 0 0 0 None None None 0)
           5000 eq_refl).
Defined.

(** X10: as long as no fetch has delivered a waypoint, no click and no
    frame has any effect: the component stays in its initial state. *)
Theorem empty_route_ignores_events (es : list event) :
  only_empty_fetch es -> run es initial = initial.
Proof.
  intros Hes. induction es as [| e es IH] using rev_ind; [reflexivity |].
  apply Forall_app in Hes as [Hes He]. inversion He as [| ? ? Hd _]; subst.
  rewrite run_snoc, (IH Hes).
  destruct e as [data | | | now].
  - subst data. reflexivity.
  - now apply step_click_empty; [| left].
  - now apply step_click_empty; [| right].
  - now apply step_frame_idle.
Qed.

Lemma empty_route_ignores_events_witness :
  only_empty_fetch [ClickPlayPause; Frame 5000; Fetched []; ClickReset]
  /\ run [ClickPlayPause; Frame 5000; Fetched []; ClickReset] initial
     = initial.
Proof.
  assert (H : only_empty_fetch
                [ClickPlayPause; Frame 5000; Fetched []; ClickReset])
    by (repeat constructor).
  split; [exact H |].
  exact (empty_route_ignores_events _ H).
Defined.

(** X11: a frame never skips a waypoint and never steps back: as long as
    the component is still playing after the frame, the index is the one
    before the frame or the next one, however late the frame comes. *)
Theorem frame_advances_at_most_one (now : R) (s : Engine) :
  playing (step (Frame now) s) = true ->
  currentIndex (step (Frame now) s) = currentIndex s
  \/ currentIndex (step (Frame now) s) = (currentIndex s + 1)%nat.
Proof.
  destruct (step_outcome (Frame now) s)
    as [| data E _ | data E _ | _ | E _ _ | t current next E Hp Hc Hn];
    try discriminate; auto.
  intros _. rewrite (animate_sample t s current next Hp Hc Hn). cbv zeta.
  destruct (JS.ge _ 1); cbn; auto.
Qed.

Lemma frame_advances_at_most_one_witness :
  playing (step (Frame 6000) state3_first) = true
  /\ (currentIndex (step (Frame 6000) state3_first)
      = currentIndex state3_first
      \/ currentIndex (step (Frame 6000) state3_first)
         = (currentIndex state3_first + 1)%nat).
Proof.
  assert (H : playing (step (Frame 6000) state3_first) = true).
  { rewrite <- trace3_first_frame, <- run_snoc.
    change (_ ++ [Frame 6000]) with trace3.
    rewrite trace3_second_frame. reflexivity. }
  split; [exact H |].
  exact (frame_advances_at_most_one 6000 state3_first H).
Defined.

(* ------------------------------------------------------------------ *)
(** ** The progress of a frame on a segment of non-zero duration *)

Lemma Rleb_spec (x y : R) : JS.Rleb x y = true <-> x <= y.
Proof.
  unfold JS.Rleb. destruct (Rle_dec x y); split; intros H;
    try reflexivity; try assumption; try discriminate; contradiction.
Qed.

Lemma tickProgress_value
    (now : R) (s : Engine) (current next : LocationPoint) :
  timestamp next <> timestamp current ->
  tickProgress now s current next
  = JS.min (Num (progressQuotient now (startOrigin (startTimeRef s) now)
                   (currentIndex s) (timestamp current) (timestamp next))) 1.
Proof.
  intros Hts. unfold tickProgress.
  rewrite tickElapsed_finite, timeDiff_finite.
  unfold segmentProgress. cbv zeta. rewrite mul_num, sub_num.
  rewrite div_num by lra. reflexivity.
Qed.

(** X13: the first frame after the origin was cleared (after Play, and after
    every advance), on a segment of non-zero duration with index i, sets the
    elapsed time to 0 and the origin to its own instant, computes the
    progress -i, keeps the index, and samples the position
    current - i * (next - current); on the first segment that is the first
    waypoint itself. *)
Theorem first_frame_of_segment
    (now : R) (s : Engine) (current next : LocationPoint) :
  playing s = true ->
  nth_error (route s) (currentIndex s) = Some current ->
  nth_error (route s) (currentIndex s + 1) = Some next ->
  timestamp next <> timestamp current ->
  startTimeRef s = None ->
  let s' := step (Frame now) s in
  let i := INR (currentIndex s) in
  elapsedTime s' = Num 0
  /\ startTimeRef s' = Some now
  /\ progressRef s' = Num (- i)
  /\ currentIndex s' = currentIndex s
  /\ lastPositionRef s'
     = Some (Num (latitude current - i * (latitude next - latitude current)),
             Num (longitude current
                  - i * (longitude next - longitude current)))
  /\ (currentIndex s = 0%nat ->
      lastPositionRef s' = Some (Num (latitude current),
                                 Num (longitude current))).
Proof.
  intros Hp Hc Hn Hts Hst. cbv zeta.
  pose proof (pos_INR (currentIndex s)) as Hi.
  assert (Hq : progressQuotient now (startOrigin (startTimeRef s) now)
                 (currentIndex s) (timestamp current) (timestamp next)
               = - INR (currentIndex s)).
  { rewrite Hst. unfold progressQuotient, startOrigin. field. lra. }
  assert (Hprog : tickProgress now s current next
                  = Num (- INR (currentIndex s))).
  { rewrite tickProgress_value, Hq by assumption.
    cbn [JS.min]. now rewrite Rleb_true by lra. }
  assert (Hge : JS.ge (tickProgress now s current next) 1 = false).
  { rewrite Hprog. cbn [JS.ge]. apply Rleb_false. lra. }
  assert (Hpos : lastPositionRef (step (Frame now) s)
     = Some (Num (latitude current
                  - INR (currentIndex s) * (latitude next - latitude current)),
             Num (longitude current
                  - INR (currentIndex s)
                    * (longitude next - longitude current)))).
  { rewrite (frame_lastPosition now s current next Hp Hc Hn).
    unfold tickPos, interpolate, lerp. rewrite Hprog. js_finite.
    f_equal. f_equal; f_equal; ring. }
  rewrite (frame_elapsed now s current next Hp Hc Hn), tickElapsed_finite.
  rewrite (frame_start now s current next Hp Hc Hn).
  rewrite (frame_progress now s current next Hp Hc Hn).
  rewrite (frame_index now s current next Hp Hc Hn).
  rewrite Hge, Hprog, Hst. cbn [startOrigin].
  split; [f_equal; lra |]. split; [reflexivity |]. split; [reflexivity |].
  split; [reflexivity |]. split; [exact Hpos |].
  intros Hz. rewrite Hpos, Hz. cbn [INR]. f_equal. f_equal; f_equal; ring.
Qed.

Lemma first_frame_of_segment_witness :
  playing state3 = true
  /\ nth_error (route state3) (currentIndex state3) = Some (mkPoint 0 1 1000)
  /\ nth_error (route state3) (currentIndex state3 + 1)
     = Some (mkPoint 0 2 2000)
  /\ timestamp (mkPoint 0 2 2000) <> timestamp (mkPoint 0 1 1000)
  /\ startTimeRef state3 = None
  /\ (let s' := step (Frame 6500) state3 in
      let i := INR (currentIndex state3) in
      elapsedTime s' = Num 0
      /\ startTimeRef s' = Some 6500
      /\ progressRef s' = Num (- i)
      /\ currentIndex s' = currentIndex state3
      /\ lastPositionRef s'
         = Some (Num (latitude (mkPoint 0 1 1000)
                      - i * (latitude (mkPoint 0 2 2000)
                             - latitude (mkPoint 0 1 1000))),
                 Num (longitude (mkPoint 0 1 1000)
                      - i * (longitude (mkPoint 0 2 2000)
                             - longitude (mkPoint 0 1 1000))))
      /\ (currentIndex state3 = 0%nat ->
          lastPositionRef s' = Some (Num (latitude (mkPoint 0 1 1000)),
                                     Num (longitude (mkPoint 0 1 1000))))).
Proof.
  assert (Hts : timestamp (mkPoint 0 2 2000) <> timestamp (mkPoint 0 1 1000))
    by (cbn; lra).
  split; [reflexivity |]. split; [reflexivity |]. split; [reflexivity |].
  split; [exact Hts |]. split; [reflexivity |].
  exact (first_frame_of_segment 6500 state3
           (mkPoint 0 1 1000) (mkPoint 0 2 2000)
           eq_refl eq_refl eq_refl Hts eq_refl).
Defined.

(** X14: on the first segment, when its second timestamp is later than its
    first and the wall clock is not before the origin, the sampled position
    lies between the two waypoints: it is the interpolation at a progress
    between 0 and 1. *)
Theorem first_segment_marker_between_waypoints
    (now : R) (s : Engine) (current next : LocationPoint) :
  playing s = true ->
  nth_error (route s) (currentIndex s) = Some current ->
  nth_error (route s) (currentIndex s + 1) = Some next ->
  currentIndex s = 0%nat ->
  timestamp current < timestamp next ->
  startOrigin (startTimeRef s) now <= now ->
  exists p : R,
    0 <= p <= 1
    /\ lastPositionRef (step (Frame now) s)
       = Some (Num (latitude current
                    + (latitude next - latitude current) * p),
               Num (longitude current
                    + (longitude next - longitude current) * p)).
Proof.
  intros Hp Hc Hn Hz Hts Hclock.
  rewrite (frame_lastPosition now s current next Hp Hc Hn).
  unfold tickPos, interpolate, lerp.
  rewrite tickProgress_value by lra. rewrite Hz.
  set (q := progressQuotient now (startOrigin (startTimeRef s) now) 0
              (timestamp current) (timestamp next)).
  assert (Hq : 0 <= q).
  { unfold q, progressQuotient. cbn [INR].
    replace (((now - startOrigin (startTimeRef s) now) / 1000
              - 0 * ((timestamp next - timestamp current) / 1000))
             / ((timestamp next - timestamp current) / 1000))
      with ((now - startOrigin (startTimeRef s) now)
            / (timestamp next - timestamp current)) by (field; lra).
    apply Rmult_le_pos; [lra |].
    left. apply Rinv_0_lt_compat. lra. }
  cbn [JS.min]. destruct (JS.Rleb q 1) eqn:E.
  - apply Rleb_spec in E. exists q. split; [lra |]. now js_finite.
  - exists 1. split; [lra |]. now js_finite.
Qed.

Lemma first_segment_marker_between_waypoints_witness :
  playing state3_first = true
  /\ nth_error (route state3_first) (currentIndex state3_first)
     = Some (mkPoint 0 0 0)
  /\ nth_error (route state3_first) (currentIndex state3_first + 1)
     = Some (mkPoint 0 1 1000)
  /\ currentIndex state3_first = 0%nat
  /\ timestamp (mkPoint 0 0 0) < timestamp (mkPoint 0 1 1000)
  /\ startOrigin (startTimeRef state3_first) 5500 <= 5500
  /\ exists p : R,
      0 <= p <= 1
      /\ lastPositionRef (step (Frame 5500) state3_first)
         = Some (Num (latitude (mkPoint 0 0 0)
                      + (latitude (mkPoint 0 1 1000)
                         - latitude (mkPoint 0 0 0)) * p),
                 Num (longitude (mkPoint 0 0 0)
                      + (longitude (mkPoint 0 1 1000)
                         - longitude (mkPoint 0 0 0)) * p)).
Proof.
  assert (Hts : timestamp (mkPoint 0 0 0) < timestamp (mkPoint 0 1 1000))
    by (cbn; lra).
  assert (Hclock : startOrigin (startTimeRef state3_first) 5500 <= 5500).
  { cbn [state3_first startTimeRef startOrigin].
    rewrite Reqb_false by lra. lra. }
  split; [reflexivity |]. split; [reflexivity |]. split; [reflexivity |].
  split; [reflexivity |]. split; [exact Hts |]. split; [exact Hclock |].
  exact (first_segment_marker_between_waypoints 5500 state3_first
           (mkPoint 0 0 0) (mkPoint 0 1 1000)
           eq_refl eq_refl eq_refl eq_refl Hts Hclock).
Defined.

(* ------------------------------------------------------------------ *)
(** ** The timestamp line *)







